(** * media_manager/utils.py: the filename parsing core

    A shallow embedding of [clean_parts], [smart_title], [parse_movie] and
    [parse_show], together with the part of Python's [re] and [str]
    libraries those functions call.

    Strings.  A Python [str] is a sequence of code points; the embedding
    covers the code points below 128 and represents such a string as a
    [list ascii].  The character classes ([\d], [\s], [str.isspace]) and the
    case mappings ([str.lower], [str.capitalize], [re.IGNORECASE]) are the
    ASCII rows of CPython's tables; a character with the high bit set is
    treated as a caseless character that is neither a digit nor a space.

    Exceptions.  A call that can raise is a computation in [result]; the
    pure string helpers of Python that cannot raise are plain functions. *)

From Stdlib Require Import Ascii String DecimalString.
From Stdlib Require Import ZArith Lia Bool Arith PeanoNat List.
Import ListNotations.

Open Scope string_scope.
Open Scope list_scope.
Open Scope nat_scope.

(** ** Strings *)

Definition pystr : Type := list ascii.

Coercion list_ascii_of_string : string >-> list.

Fixpoint str_eqb (a b : pystr) : bool :=
  match a, b with
  | [], [] => true
  | x :: a', y :: b' => Ascii.eqb x y && str_eqb a' b'
  | _, _ => false
  end.

Definition code (c : ascii) : nat := nat_of_ascii c.

(** [\d] on ASCII: '0'..'9'. *)
Definition is_digit (c : ascii) : bool := (48 <=? code c) && (code c <=? 57).

(** [\s] and [str.isspace] on ASCII: TAB LF VT FF CR, FS GS RS US, SPACE. *)
Definition is_space (c : ascii) : bool :=
  ((9 <=? code c) && (code c <=? 13)) || ((28 <=? code c) && (code c <=? 32)).

Definition is_upper (c : ascii) : bool := (65 <=? code c) && (code c <=? 90).
Definition is_lower (c : ascii) : bool := (97 <=? code c) && (code c <=? 122).

Definition lower_char (c : ascii) : ascii :=
  if is_upper c then ascii_of_nat (code c + 32) else c.

Definition upper_char (c : ascii) : ascii :=
  if is_lower c then ascii_of_nat (code c - 32) else c.

Definition ascii_only (s : pystr) : bool := forallb (fun c => code c <? 128) s.

(** [s.lower()] *)
Definition lower (s : pystr) : pystr := map lower_char s.

(** [s.capitalize()] *)
Definition capitalize (s : pystr) : pystr :=
  match s with
  | [] => []
  | c :: s' => upper_char c :: lower s'
  end.

Fixpoint lstrip (p : ascii -> bool) (s : pystr) : pystr :=
  match s with
  | [] => []
  | c :: s' => if p c then lstrip p s' else s
  end.

Definition rstrip (p : ascii -> bool) (s : pystr) : pystr :=
  rev (lstrip p (rev s)).

Definition strip_by (p : ascii -> bool) (s : pystr) : pystr :=
  rstrip p (lstrip p s).

(** [s.strip()] *)
Definition strip (s : pystr) : pystr := strip_by is_space s.

(** [s.strip(chars)] *)
Definition strip_chars (chars : pystr) (s : pystr) : pystr :=
  strip_by (fun c => existsb (Ascii.eqb c) chars) s.

(** [sep.join(l)] *)
Fixpoint join (sep : pystr) (l : list pystr) : pystr :=
  match l with
  | [] => []
  | [x] => x
  | x :: l' => x ++ sep ++ join sep l'
  end.

(** [s.split()]: the words between runs of whitespace; [cur] is the word
    being read. *)
Fixpoint split_from (cur : pystr) (s : pystr) : list pystr :=
  match s with
  | [] => match cur with [] => [] | _ => [cur] end
  | c :: s' =>
      if is_space c
      then match cur with
           | [] => split_from [] s'
           | _ => cur :: split_from [] s'
           end
      else split_from (cur ++ [c]) s'
  end.

Definition split (s : pystr) : list pystr := split_from [] s.

(** [x in set_of_strings] *)
Definition mem (x : pystr) (l : list pystr) : bool := existsb (str_eqb x) l.

(** ** Exceptions *)

Inductive exn : Type := ValueError | TypeError | IndexError.

Inductive result (A : Type) : Type :=
| Ok (a : A)
| Raise (e : exn).
Arguments Ok {A} a.
Arguments Raise {A} e.

Definition bind {A B : Type} (m : result A) (k : A -> result B) : result B :=
  match m with
  | Ok a => k a
  | Raise e => Raise e
  end.

Notation "x <- m ;; k" := (bind m (fun x => k))
  (at level 61, m at next level, right associativity).
Notation "' p <- m ;; k" := (bind m (fun x => match x with p => k end))
  (at level 61, p pattern, m at next level, right associativity).

(** ** Integers *)

Definition digit_val (c : ascii) : Z := Z.of_nat (code c - 48).

(** [int(s)] on a string.  The model accepts a non-empty run of ASCII digits
    and raises on anything else; CPython accepts more (a sign, surrounding
    blanks, underscores), so a call that does not raise here does not raise
    there and returns the same number. *)
Definition digits_value (s : pystr) : Z :=
  fold_left (fun acc c => 10 * acc + digit_val c)%Z s 0%Z.

Definition py_int (s : pystr) : result Z :=
  match s with
  | [] => Raise ValueError
  | _ => if forallb is_digit s then Ok (digits_value s) else Raise ValueError
  end.

(** [int(x)] where [x] may be [None]. *)
Definition py_int_opt (x : option pystr) : result Z :=
  match x with
  | Some s => py_int s
  | None => Raise TypeError
  end.

(** [str(n)] for an integer. *)
Definition py_str (n : Z) : pystr :=
  list_ascii_of_string (NilZero.string_of_int (Z.to_int n)).

(** [list(range(a, b))] *)
Definition py_range (a b : Z) : list Z :=
  map (fun i => (a + Z.of_nat i)%Z) (seq 0 (Z.to_nat (b - a))).

(** [l[i]] *)
Definition index {A : Type} (l : list A) (i : nat) : result A :=
  match nth_error l i with
  | Some x => Ok x
  | None => Raise IndexError
  end.

(** ** Regular expressions: the fragment of [re] the module uses *)

Inductive cset : Type :=
| CChar (c : ascii)      (* a literal member *)
| CSpace                 (* \s *)
| CDigit.                (* \d *)

Inductive regex : Type :=
| Eps
| Chr (c : ascii)                     (* a literal character *)
| Cls (neg : bool) (items : list cset) (* [...] and [^...] *)
| Cat (r1 r2 : regex)
| Alt (r1 r2 : regex)                 (* r1|r2, r1 tried first *)
| Star (r : regex)                    (* r*, greedy *)
| Group (n : nat) (r : regex)         (* the n-th capturing group *)
| Eos.                                (* $ *)

(** [r?], [r+], [\d], [r{2}], [r{1,2}] (all greedy). *)
Definition Opt (r : regex) : regex := Alt r Eps.
Definition Plus (r : regex) : regex := Cat r (Star r).
Definition Dig : regex := Cls false [CDigit].
Definition Rep2 (r : regex) : regex := Cat r r.
Definition Rep1_2 (r : regex) : regex := Cat r (Opt r).

Definition caps : Type := list (nat * pystr).

Fixpoint lookup (n : nat) (c : caps) : option pystr :=
  match c with
  | [] => None
  | (k, v) :: c' => if Nat.eqb k n then Some v else lookup n c'
  end.

(** A literal against a character; [ic] is [re.IGNORECASE]. *)
Definition chr_match (ic : bool) (c x : ascii) : bool :=
  if ic then Ascii.eqb (lower_char x) (lower_char c) else Ascii.eqb x c.

Definition item_match (ic : bool) (x : ascii) (i : cset) : bool :=
  match i with
  | CChar c => chr_match ic c x
  | CSpace => is_space x
  | CDigit => is_digit x
  end.

Definition cls_match (ic neg : bool) (items : list cset) (x : ascii) : bool :=
  xorb neg (existsb (item_match ic x) items).

(** One way of matching: the text consumed, the input left, the captures. *)
Record outcome : Type := mk_out {
  matched : pystr;
  rest : pystr;
  groups : caps
}.

Definition after (p : pystr) (o : outcome) : outcome :=
  mk_out (p ++ matched o) (rest o) (groups o).

(** The iterations of a greedy star, longest first.  An iteration that
    consumes nothing is cut, so at most [length s] iterations happen. *)
Fixpoint star_loop (step : pystr -> caps -> list outcome)
  (fuel : nat) (s : pystr) (c : caps) : list outcome :=
  match fuel with
  | 0 => [mk_out [] s c]
  | S fuel' =>
      flat_map (fun o => match matched o with
                         | [] => []
                         | _ => map (after (matched o))
                                    (star_loop step fuel' (rest o) (groups o))
                         end)
               (step s c)
      ++ [mk_out [] s c]
  end.

(** [run ic r s c]: every way [r] matches a prefix of [s] when the captures
    so far are [c], in the order in which the backtracking matcher of [re]
    tries them. *)
Fixpoint run (ic : bool) (r : regex) (s : pystr) (c : caps) : list outcome :=
  match r with
  | Eps => [mk_out [] s c]
  | Chr a =>
      match s with
      | x :: s' => if chr_match ic a x then [mk_out [x] s' c] else []
      | [] => []
      end
  | Cls neg items =>
      match s with
      | x :: s' => if cls_match ic neg items x then [mk_out [x] s' c] else []
      | [] => []
      end
  | Cat r1 r2 =>
      flat_map (fun o => map (after (matched o)) (run ic r2 (rest o) (groups o)))
               (run ic r1 s c)
  | Alt r1 r2 => run ic r1 s c ++ run ic r2 s c
  | Star r1 => star_loop (run ic r1) (length s) s c
  | Group n r1 =>
      map (fun o => mk_out (matched o) (rest o) ((n, matched o) :: groups o))
          (run ic r1 s c)
  | Eos =>
      match s with
      | [] => [mk_out [] s c]
      | [x] => if Ascii.eqb x "010" then [mk_out [] s c] else []
      | _ => []
      end
  end.

(** The same, as a relation: [matches ic r s c p s' c'] when [r] can match
    the prefix [p] of [s], leaving [s'], and the captures go from [c] to
    [c']. *)
Inductive matches (ic : bool)
  : regex -> pystr -> caps -> pystr -> pystr -> caps -> Prop :=
| M_eps s c : matches ic Eps s c [] s c
| M_chr a x s c :
    chr_match ic a x = true -> matches ic (Chr a) (x :: s) c [x] s c
| M_cls neg items x s c :
    cls_match ic neg items x = true ->
    matches ic (Cls neg items) (x :: s) c [x] s c
| M_cat r1 r2 s c p1 s1 c1 p2 s2 c2 :
    matches ic r1 s c p1 s1 c1 -> matches ic r2 s1 c1 p2 s2 c2 ->
    matches ic (Cat r1 r2) s c (p1 ++ p2) s2 c2
| M_alt_l r1 r2 s c p s' c' :
    matches ic r1 s c p s' c' -> matches ic (Alt r1 r2) s c p s' c'
| M_alt_r r1 r2 s c p s' c' :
    matches ic r2 s c p s' c' -> matches ic (Alt r1 r2) s c p s' c'
| M_star_stop r s c : matches ic (Star r) s c [] s c
| M_star_more r s c p1 s1 c1 p2 s2 c2 :
    matches ic r s c p1 s1 c1 -> p1 <> [] ->
    matches ic (Star r) s1 c1 p2 s2 c2 ->
    matches ic (Star r) s c (p1 ++ p2) s2 c2
| M_group n r s c p s' c' :
    matches ic r s c p s' c' ->
    matches ic (Group n r) s c p s' ((n, p) :: c')
| M_eos_end c : matches ic Eos [] c [] [] c
| M_eos_nl c : matches ic Eos ["010"%char] c [] ["010"%char] c.

(** A match object: where it starts, the text of group 0, the groups. *)
Record rmatch : Type := mk_rmatch {
  m_start : nat;
  m_text : pystr;
  m_groups : caps
}.

(** [m.group(n)]; [None] when the group took no part in the match. *)
Definition group (m : rmatch) (n : nat) : option pystr :=
  match n with
  | 0 => Some (m_text m)
  | _ => lookup n (m_groups m)
  end.

(** The match of [r] at the start of [s], if any: the first way found. *)
Definition match_here (ic : bool) (r : regex) (s : pystr) : option outcome :=
  hd_error (run ic r s []).

Fixpoint search_from (ic : bool) (r : regex) (pos : nat) (s : pystr)
  : option rmatch :=
  match match_here ic r s with
  | Some o => Some (mk_rmatch pos (matched o) (groups o))
  | None =>
      match s with
      | [] => None
      | _ :: s' => search_from ic r (S pos) s'
      end
  end.

(** [re.search(r, s, flags)] *)
Definition re_search (ic : bool) (r : regex) (s : pystr) : option rmatch :=
  search_from ic r 0 s.

(** [re.sub(r, repl, s)] for a plain [repl].  The loop is the one of [re]
    for a pattern that never matches the empty string, which is the case of
    the pattern it is called with (see [ext_pattern_consumes]); an empty
    match is passed over. *)
Fixpoint sub_loop (ic : bool) (r : regex) (repl : pystr) (fuel : nat)
  (s : pystr) : pystr :=
  match fuel with
  | 0 => s
  | S fuel' =>
      let skip := match s with
                  | [] => []
                  | x :: s' => x :: sub_loop ic r repl fuel' s'
                  end in
      match match_here ic r s with
      | Some o =>
          match matched o with
          | [] => skip
          | _ => repl ++ sub_loop ic r repl fuel' (rest o)
          end
      | None => skip
      end
  end.

Definition re_sub (ic : bool) (r : regex) (repl s : pystr) : pystr :=
  sub_loop ic r repl (S (length s)) s.

(** [re.split(r, s)] for a pattern without groups that never matches the
    empty string (see [delim_pattern_consumes]); [cur] is the part being
    read. *)
Fixpoint split_loop (ic : bool) (r : regex) (fuel : nat) (cur s : pystr)
  : list pystr :=
  match fuel with
  | 0 => [cur ++ s]
  | S fuel' =>
      let skip := match s with
                  | [] => [cur]
                  | x :: s' => split_loop ic r fuel' (cur ++ [x]) s'
                  end in
      match match_here ic r s with
      | Some o =>
          match matched o with
          | [] => skip
          | _ => cur :: split_loop ic r fuel' [] (rest o)
          end
      | None => skip
      end
  end.

Definition re_split (ic : bool) (r : regex) (s : pystr) : list pystr :=
  split_loop ic r (S (length s)) [] s.

(** ** The module's constants *)

Notation "r1 +++ r2" := (Cat r1 r2) (at level 50, left associativity).

(** [(\.[^.]+)+$] *)
Definition ext_pattern : regex :=
  Plus (Group 1 (Chr "." +++ Plus (Cls true [CChar "."]))) +++ Eos.

(** [(19|20)\d{2}] *)
Definition year_pattern : regex :=
  Group 1 (Alt (Chr "1" +++ Chr "9") (Chr "2" +++ Chr "0")) +++ Rep2 Dig.

(** [S?(\d{1,2})[xE](\d{2})(?:-?E?(\d{2}))?] *)
Definition show_pattern : regex :=
  Opt (Chr "S") +++ Group 1 (Rep1_2 Dig) +++ Cls false [CChar "x"; CChar "E"]
  +++ Group 2 (Rep2 Dig)
  +++ Opt (Opt (Chr "-") +++ Opt (Chr "E") +++ Group 3 (Rep2 Dig)).

(** [[.\-_\s]] *)
Definition delim_pattern : regex :=
  Cls false [CChar "."; CChar "-"; CChar "_"; CSpace].

Definition junk : list pystr :=
  [ "720p" : pystr; "1080p" : pystr; "2160p" : pystr; "x264" : pystr;
    "x265" : pystr; "h264" : pystr; "bluray" : pystr; "webrip" : pystr;
    "hdrip" : pystr ].

Definition SMALL_WORDS : list pystr :=
  [ "a" : pystr; "an" : pystr; "and" : pystr; "as" : pystr; "at" : pystr;
    "but" : pystr; "by" : pystr; "for" : pystr; "in" : pystr; "nor" : pystr;
    "of" : pystr; "on" : pystr; "or" : pystr; "per" : pystr; "the" : pystr;
    "to" : pystr; "vs" : pystr; "via" : pystr ].

(** ** clean_parts *)

(** Truth value of a [str | None]. *)
Definition str_truthy (x : option pystr) : bool :=
  match x with
  | Some (_ :: _) => true
  | _ => false
  end.

(** Truth value of [year], an [int | None]. *)
Definition year_truthy (year : option Z) : bool :=
  match year with
  | Some y => negb (Z.eqb y 0)
  | None => false
  end.

Definition year_is (year : option Z) (token : pystr) : bool :=
  match year with
  | Some y => str_eqb token (py_str y)
  | None => false
  end.

(** The name after [re.sub(r"(\.[^.]+)+$", "", filename)]. *)
Definition strip_ext (filename : pystr) : pystr :=
  re_sub false ext_pattern [] filename.

(** The [if detect_year:] block. *)
Definition detect_year_of (name : pystr) : result (option Z) :=
  match re_search false year_pattern name with
  | Some pattern => year <- py_int_opt (group pattern 0) ;; Ok (Some year)
  | None => Ok None
  end.

(** The [if detect_show_info:] block. *)
Definition detect_show_info_of (name : pystr) : result (option (Z * list Z)) :=
  match re_search true show_pattern name with
  | Some pattern =>
      season <- py_int_opt (group pattern 1) ;;
      episode <- py_int_opt (group pattern 2) ;;
      let last_episode := group pattern 3 in
      episodes <-
        (if str_truthy last_episode
         then l <- py_int_opt last_episode ;; Ok (py_range episode (l + 1))
         else Ok [episode]) ;;
      Ok (Some (season, episodes))
  | None => Ok None
  end.

(** [re.split(r"[.\-_\s]", name)] *)
Definition raw_parts (name : pystr) : list pystr :=
  re_split false delim_pattern name.

(** The [for part in parts:] loop; [cleaned_parts] is the list built so far. *)
Fixpoint clean_loop (year : option Z) (parts : list pystr)
  (cleaned_parts : list pystr) : list pystr :=
  match parts with
  | [] => cleaned_parts
  | part :: parts' =>
      let token := lower (strip_chars "()[]" part) in
      if year_truthy year && year_is year token
      then clean_loop year parts' cleaned_parts
      else if negb (mem token junk)
           then clean_loop year parts' (cleaned_parts ++ [token])
           else clean_loop year parts' cleaned_parts
  end.

Definition clean_parts (filename : pystr) (detect_year detect_show_info : bool)
  : result (list pystr * option Z * option (Z * list Z)) :=
  let name := strip_ext filename in
  year <- (if detect_year then detect_year_of name else Ok None) ;;
  show_info <- (if detect_show_info then detect_show_info_of name else Ok None) ;;
  let parts := raw_parts name in
  Ok (clean_loop year parts [], year, show_info).

(** ** smart_title *)

(** The [for i, word in enumerate(words):] loop. *)
Fixpoint title_loop (i : nat) (words : list pystr) (titled : list pystr)
  : list pystr :=
  match words with
  | [] => titled
  | word :: words' =>
      if (i =? 0) || negb (mem (lower word) SMALL_WORDS)
      then title_loop (S i) words' (titled ++ [capitalize word])
      else title_loop (S i) words' (titled ++ [lower word])
  end.

Definition smart_title (text : pystr) : pystr :=
  let words := split text in
  join " " (title_loop 0 words []).

(** ** parse_movie *)

Record ParsedMovie : Type := mk_movie {
  movie_title : pystr;
  movie_year : option Z
}.

Definition parse_movie (filename : pystr) : result ParsedMovie :=
  r <- clean_parts filename true false ;;
  let '(cleaned_parts, year, _) := r in
  let title := smart_title (strip (join " " cleaned_parts)) in
  Ok (mk_movie title year).

(** ** parse_show *)

Record ParsedShow : Type := mk_show {
  title : pystr;
  season : option Z;
  episodes : option (list Z);
  episode_title : option pystr
}.

(** [any(str(episode) == part for episode in episodes)] *)
Definition any_episode (episodes : list Z) (part : pystr) : bool :=
  existsb (fun episode => str_eqb (py_str episode) part) episodes.

(** The first loop of [parse_show]: [i] counts the tokens passed, the
    result is [token_index] when the loop ends. *)
Fixpoint first_episode_token (episodes : list Z) (i : nat)
  (parts : list pystr) (token_index : nat) : nat :=
  match parts with
  | [] => token_index
  | part :: parts' =>
      if any_episode episodes part
      then i
      else first_episode_token episodes (S i) parts' token_index
  end.

(** The second loop, over [range(token_index, len(cleaned_parts))]; the
    result is [last_episode_index] when the loop ends. *)
Fixpoint last_episode_token (episodes : list Z) (cleaned_parts : list pystr)
  (range : list nat) (last_episode_index : nat) : result nat :=
  match range with
  | [] => Ok last_episode_index
  | i :: range' =>
      part <- index cleaned_parts i ;;
      if any_episode episodes part
      then last_episode_token episodes cleaned_parts range' i
      else Ok last_episode_index
  end.

Definition parse_show (filename : pystr) : result ParsedShow :=
  r <- clean_parts filename false true ;;
  let '(cleaned_parts, _, show_info) := r in
  let token_index := length cleaned_parts in
  match show_info with
  | Some (season, episodes) =>
      let token_index :=
        first_episode_token episodes 0 cleaned_parts token_index in
      last_episode_index <-
        last_episode_token episodes cleaned_parts
          (seq token_index (length cleaned_parts - token_index))
          token_index ;;
      let episode_title :=
        if last_episode_index + 1 <? length cleaned_parts
        then Some (smart_title
                     (strip (join " " (skipn (last_episode_index + 1) cleaned_parts))))
        else None in
      let title := smart_title (strip (join " " (firstn token_index cleaned_parts))) in
      Ok (mk_show title (Some season) (Some episodes) episode_title)
  | None =>
      let title := smart_title (strip (join " " (firstn token_index cleaned_parts))) in
      Ok (mk_show title None None None)
  end.

(** ** Notions used to state the properties *)

(** How [smart_title] renders a word that is not the first one. *)
Definition render_word (word : pystr) : pystr :=
  if mem (lower word) SMALL_WORDS then lower word else capitalize word.

Definition titled_words (words : list pystr) : list pystr :=
  match words with
  | [] => []
  | first :: others => capitalize first :: map render_word others
  end.

(** A word: not empty and without whitespace. *)
Definition is_word (w : pystr) : Prop :=
  w <> [] /\ forallb (fun c => negb (is_space c)) w = true.

(** Two adjacent whitespace characters somewhere in [s]. *)
Fixpoint double_space (s : pystr) : bool :=
  match s with
  | a :: s' =>
      match s' with
      | b :: _ => (is_space a && is_space b) || double_space s'
      | [] => false
      end
  | [] => false
  end.

Definition leading_space (s : pystr) : bool :=
  match s with
  | c :: _ => is_space c
  | [] => false
  end.

Definition trailing_space (s : pystr) : bool := leading_space (rev s).

(** No run of two whitespace characters, none at either end. *)
Definition tidy (s : pystr) : Prop :=
  double_space s = false /\ leading_space s = false /\ trailing_space s = false.

(** The delimiters of [[.\-_\s]]. *)
Definition is_delim (c : ascii) : bool :=
  Ascii.eqb c "." || Ascii.eqb c "-" || Ascii.eqb c "_" || is_space c.

(** Cutting [s] at every character that satisfies [p]. *)
Fixpoint split_on (p : ascii -> bool) (cur s : pystr) : list pystr :=
  match s with
  | [] => [cur]
  | x :: s' => if p x then cur :: split_on p [] s' else split_on p (cur ++ [x]) s'
  end.

(** The parts put back around the delimiters [ds], in order. *)
Fixpoint weave (parts : list pystr) (ds : list ascii) : pystr :=
  match parts with
  | [] => []
  | part :: parts' =>
      match ds with
      | [] => part
      | d :: ds' => part ++ d :: weave parts' ds'
      end
  end.

(** The split as the specification words it (section 4.1, step 4): on
    maximal runs of delimiters, so that a run of delimiters separates two
    parts and leaves no empty part between them.  It is compared with
    [raw_parts], the split of the code. *)
Fixpoint split_on_runs (cur s : pystr) : list pystr :=
  match s with
  | [] => [cur]
  | x :: s' =>
      if is_delim x
      then match s' with
           | y :: _ => if is_delim y then split_on_runs cur s'
                       else cur :: split_on_runs [] s'
           | [] => cur :: split_on_runs [] s'
           end
      else split_on_runs (cur ++ [x]) s'
  end.

Definition all_digits (s : pystr) : Prop := forallb is_digit s = true.

(** What may stand between the first episode number and the second, as the
    pattern has it: an optional '-', then an optional 'E' of either case. *)
Definition range_tail (tail last : pystr) : Prop :=
  exists dash e : pystr,
    tail = dash ++ e ++ last /\
    (dash = [] \/ dash = "-") /\
    (e = [] \/ e = "E" \/ e = "e") /\
    all_digits last /\ length last = 2.

(** [text] is a season/episode marker with the given season digits, episode
    digits and, when [last] is given, second episode digits. *)
Definition show_marker (text season episode : pystr) (last : option pystr)
  : Prop :=
  exists (s_opt : pystr) (sep : ascii) (tail : pystr),
    text = s_opt ++ season ++ sep :: episode ++ tail /\
    (s_opt = [] \/ s_opt = "S" \/ s_opt = "s") /\
    all_digits season /\ (length season = 1 \/ length season = 2) /\
    In sep ["x"; "X"; "e"; "E"]%char /\
    all_digits episode /\ length episode = 2 /\
    match last with
    | Some l => range_tail tail l
    | None => tail = []
    end.

(** The two halves of [show_pattern]: [S?(\d{1,2})[xE](\d{2})] and
    [-?E?(\d{2})]. *)
Definition show_head : regex :=
  Opt (Chr "S") +++ Group 1 (Rep1_2 Dig) +++ Cls false [CChar "x"; CChar "E"]
  +++ Group 2 (Rep2 Dig).

Definition show_tail : regex :=
  Opt (Chr "-") +++ Opt (Chr "E") +++ Group 3 (Rep2 Dig).

(** The pattern as the specification words it (section 4.1, step 3), where
    the second episode number is recognized only after '-E' or '-':
    [S?(\d{1,2})[xE](\d{2})(?:-E?(\d{2}))?].  It is compared with
    [show_pattern], the pattern of the code. *)
Definition spec_show_pattern : regex :=
  Opt (Chr "S") +++ Group 1 (Rep1_2 Dig) +++ Cls false [CChar "x"; CChar "E"]
  +++ Group 2 (Rep2 Dig)
  +++ Opt (Chr "-" +++ Opt (Chr "E") +++ Group 3 (Rep2 Dig)).

(** The episode list computed from the groups of a match, as the
    [if detect_show_info:] block does. *)
Definition episodes_of (first : Z) (last : option Z) : list Z :=
  match last with
  | Some l => py_range first (l + 1)
  | None => [first]
  end.

(** ** Further notions *)

(** The test a candidate token passes in the loop of [clean_parts]. *)
Definition kept (year : option Z) (token : pystr) : bool :=
  negb (year_truthy year && year_is year token) && negb (mem token junk).

(** The characters of [strip("()[]")]. *)
Definition is_bracket (c : ascii) : bool := existsb (Ascii.eqb c) "()[]".

Definition dot_free (p : pystr) : Prop :=
  forallb (fun c => negb (Ascii.eqb c ".")) p = true.

Definition no_newline (s : pystr) : Prop :=
  forallb (fun c => negb (Ascii.eqb c "010")) s = true.

(** ".p1.p2...pn" *)
Definition dotted (parts : list pystr) : pystr :=
  flat_map (fun p => "."%char :: p) parts.

(** [ext] is one or more groups, each a dot and then at least one character
    that is not a dot. *)
Definition ext_form (ext : pystr) : Prop :=
  exists parts,
    parts <> [] /\ Forall (fun p => p <> [] /\ dot_free p) parts /\
    ext = dotted parts.

(** [text] is "19dd" or "20dd". *)
Definition year_marker (text : pystr) : Prop :=
  exists c d,
    (text = "1"%char :: "9"%char :: [c; d]
     \/ text = "2"%char :: "0"%char :: [c; d]) /\
    is_digit c = true /\ is_digit d = true.

(** The repeated group of [ext_pattern]: [(\.[^.]+)]. *)
Definition ext_group : regex :=
  Group 1 (Chr "." +++ Plus (Cls true [CChar "."])).

(** [bool(token)]: a string is true when it is not empty. *)
Definition nonempty (token : pystr) : bool :=
  match token with
  | [] => false
  | _ => true
  end.

(** * Properties *)

(** ** Characters and strings *)

Ltac all_chars c := destruct c as [[] [] [] [] [] [] [] []].

Lemma is_space_lower_char (c : ascii) : is_space (lower_char c) = is_space c.
Proof. all_chars c; reflexivity. Qed.

Lemma is_space_upper_char (c : ascii) : is_space (upper_char c) = is_space c.
Proof. all_chars c; reflexivity. Qed.

Lemma lower_char_idem (c : ascii) : lower_char (lower_char c) = lower_char c.
Proof. all_chars c; reflexivity. Qed.

Lemma lower_upper_char (c : ascii) : lower_char (upper_char c) = lower_char c.
Proof. all_chars c; reflexivity. Qed.

Lemma upper_char_idem (c : ascii) : upper_char (upper_char c) = upper_char c.
Proof. all_chars c; reflexivity. Qed.

Lemma str_eqb_refl (a : pystr) : str_eqb a a = true.
Proof.
  induction a as [|x a IH]; simpl; [reflexivity|].
  now rewrite Ascii.eqb_refl.
Qed.

Lemma str_eqb_eq (a b : pystr) : str_eqb a b = true <-> a = b.
Proof.
  split; [|intros ->; apply str_eqb_refl].
  revert b; induction a as [|x a IH]; intros [|y b]; simpl; try discriminate.
  - reflexivity.
  - intros H. apply andb_true_iff in H as [Hx Hab].
    apply Ascii.eqb_eq in Hx. now rewrite Hx, (IH b Hab).
Qed.

(** ** The matcher and the matching relation agree *)

Section Matcher.

Variable ic : bool.

Lemma matches_prefix r s c p s' c' :
  matches ic r s c p s' c' -> s = p ++ s'.
Proof.
  induction 1; simpl; try reflexivity; try assumption.
  - now rewrite <- app_assoc, <- IHmatches2.
  - now rewrite <- app_assoc, <- IHmatches2.
Qed.

Lemma star_loop_sound r step :
  (forall s c o, In o (step s c) ->
                 matches ic r s c (matched o) (rest o) (groups o)) ->
  forall fuel s c o, In o (star_loop step fuel s c) ->
                     matches ic (Star r) s c (matched o) (rest o) (groups o).
Proof.
  intros Hstep fuel; induction fuel as [|fuel IH]; intros s c o Hin; simpl in Hin.
  - destruct Hin as [<-|[]]. apply M_star_stop.
  - apply in_app_or in Hin as [Hin|[<-|[]]]; [|apply M_star_stop].
    apply in_flat_map in Hin as (o1 & Ho1 & Hin).
    destruct (matched o1) as [|x p1] eqn:Hp1; [destruct Hin|].
    apply in_map_iff in Hin as (o2 & <- & Ho2). simpl.
    apply (M_star_more ic r s c (x :: p1) (rest o1) (groups o1)
             (matched o2) (rest o2) (groups o2)).
    + rewrite <- Hp1. now apply Hstep.
    + discriminate.
    + now apply IH.
Qed.

Lemma run_sound r : forall s c o,
  In o (run ic r s c) -> matches ic r s c (matched o) (rest o) (groups o).
Proof.
  induction r as [|a|neg items|r1 IH1 r2 IH2|r1 IH1 r2 IH2|r1 IH1|n r1 IH1|];
    intros s c o Hin; simpl in Hin.
  - destruct Hin as [<-|[]]. constructor.
  - destruct s as [|x s]; [destruct Hin|].
    destruct (chr_match ic a x) eqn:Hm; [|destruct Hin].
    destruct Hin as [<-|[]]. now constructor.
  - destruct s as [|x s]; [destruct Hin|].
    destruct (cls_match ic neg items x) eqn:Hm; [|destruct Hin].
    destruct Hin as [<-|[]]. now constructor.
  - apply in_flat_map in Hin as (o1 & Ho1 & Hin).
    apply in_map_iff in Hin as (o2 & <- & Ho2). simpl.
    eapply M_cat; [apply IH1, Ho1 | apply IH2, Ho2].
  - apply in_app_or in Hin as [Hin|Hin].
    + apply M_alt_l. now apply IH1.
    + apply M_alt_r. now apply IH2.
  - eapply star_loop_sound; [apply IH1 | apply Hin].
  - apply in_map_iff in Hin as (o1 & <- & Ho1). simpl.
    apply M_group. now apply IH1.
  - destruct s as [|x [|y s]].
    + destruct Hin as [<-|[]]. constructor.
    + destruct (Ascii.eqb x "010") eqn:Hx; [|destruct Hin].
      apply Ascii.eqb_eq in Hx. subst x.
      destruct Hin as [<-|[]]. constructor.
    + destruct Hin.
Qed.

Lemma run_prefix r s c o : In o (run ic r s c) -> s = matched o ++ rest o.
Proof. intros H. eapply matches_prefix, run_sound, H. Qed.

Lemma flat_map_nil {A B : Type} (f : A -> list B) (l : list A) :
  (forall x, In x l -> f x = []) -> flat_map f l = [].
Proof.
  induction l as [|x l IH]; simpl; intros H; [reflexivity|].
  rewrite (H x (or_introl eq_refl)), IH; [reflexivity|].
  intros y Hy. apply H. now right.
Qed.

Lemma flat_map_ext_on {A B : Type} (f g : A -> list B) (l : list A) :
  (forall x, In x l -> f x = g x) -> flat_map f l = flat_map g l.
Proof.
  induction l as [|x l IH]; simpl; intros H; [reflexivity|].
  rewrite (H x (or_introl eq_refl)), IH; [reflexivity|].
  intros y Hy. apply H. now right.
Qed.

Lemma star_loop_fuel step :
  (forall s c o, In o (step s c) -> s = matched o ++ rest o) ->
  forall fuel1 fuel2 s c,
    length s <= fuel1 -> length s <= fuel2 ->
    star_loop step fuel1 s c = star_loop step fuel2 s c.
Proof.
  intros Hstep.
  assert (Hzero : forall fuel s c, length s = 0 ->
                    star_loop step fuel s c = [mk_out [] s c]).
  { intros [|fuel] s c Hs; simpl; [reflexivity|].
    rewrite flat_map_nil; [reflexivity|].
    intros o Ho. apply Hstep in Ho.
    destruct (matched o) as [|x p]; [reflexivity|].
    rewrite Ho in Hs. discriminate. }
  induction fuel1 as [|fuel1 IH]; intros fuel2 s c H1 H2.
  - rewrite (Hzero fuel2 s c) by lia. reflexivity.
  - destruct fuel2 as [|fuel2].
    + rewrite (Hzero (S fuel1) s c) by lia. reflexivity.
    + simpl. f_equal. apply flat_map_ext_on. intros o Ho.
      pose proof (Hstep _ _ _ Ho) as Hs.
      destruct (matched o) as [|x p] eqn:Hp; [reflexivity|].
      f_equal. apply IH.
      * rewrite Hs in H1. rewrite length_app in H1. simpl in H1. lia.
      * rewrite Hs in H2. rewrite length_app in H2. simpl in H2. lia.
Qed.

Lemma run_complete r s c p s' c' :
  matches ic r s c p s' c' -> In (mk_out p s' c') (run ic r s c).
Proof.
  induction 1; simpl.
  - now left.
  - rewrite H. now left.
  - rewrite H. now left.
  - apply in_flat_map. exists (mk_out p1 s1 c1). split; [assumption|].
    apply in_map_iff. exists (mk_out p2 s2 c2). now split.
  - apply in_or_app. now left.
  - apply in_or_app. now right.
  - destruct (length s); simpl; [now left|].
    apply in_or_app. right. now left.
  - pose proof (matches_prefix _ _ _ _ _ _ H) as Hs.
    destruct (length s) as [|n] eqn:Hn.
    + rewrite Hs in Hn. destruct p1; [contradiction|discriminate].
    + simpl. apply in_or_app. left.
      apply in_flat_map. exists (mk_out p1 s1 c1). split; [assumption|].
      simpl. destruct p1 as [|x p1]; [contradiction|].
      apply in_map_iff. exists (mk_out p2 s2 c2). split; [reflexivity|].
      simpl in IHmatches2.
      rewrite (star_loop_fuel (run ic r) (fun s c o => run_prefix r s c o)
                 n (length s1) s1 c1); [assumption| |lia].
      rewrite Hs in Hn. rewrite length_app in Hn. simpl in Hn. lia.
  - apply in_map_iff. exists (mk_out p s' c'). now split.
  - now left.
  - now left.
Qed.

(** [run] lists exactly the ways of matching. *)
Lemma run_spec r s c p s' c' :
  In (mk_out p s' c') (run ic r s c) <-> matches ic r s c p s' c'.
Proof.
  split; [apply (run_sound r s c (mk_out p s' c')) | apply run_complete].
Qed.

Lemma match_here_sound r s o :
  match_here ic r s = Some o ->
  matches ic r s [] (matched o) (rest o) (groups o).
Proof.
  unfold match_here. intros H. apply run_sound.
  destruct (run ic r s []) as [|o' l]; [discriminate|].
  injection H as ->. now left.
Qed.

Lemma match_here_none r s :
  match_here ic r s = None <-> (forall p s' c', ~ matches ic r s [] p s' c').
Proof.
  unfold match_here. split.
  - intros H p s' c' Hm. apply run_complete in Hm.
    destruct (run ic r s []); [destruct Hm|discriminate].
  - intros H. destruct (run ic r s []) as [|o l] eqn:Hr; [reflexivity|].
    exfalso. apply (H (matched o) (rest o) (groups o)).
    apply run_sound. rewrite Hr. now left.
Qed.

(** [re.search] returns a match at the leftmost position that has one. *)
Lemma search_from_some r : forall s pos m,
  search_from ic r pos s = Some m ->
  exists pre suf s',
    s = pre ++ suf /\ m_start m = pos + length pre /\
    matches ic r suf [] (m_text m) s' (m_groups m) /\
    match_here ic r suf = Some (mk_out (m_text m) s' (m_groups m)) /\
    (forall pre' suf', s = pre' ++ suf' -> length pre' < length pre ->
                       match_here ic r suf' = None).
Proof.
  induction s as [|x s IH]; intros pos m H; simpl in H.
  - destruct (match_here ic r []) as [o|] eqn:Ho; [|discriminate].
    injection H as <-. exists [], [], (rest o). simpl.
    split; [reflexivity|]. split; [lia|]. split; [|split].
    + now apply match_here_sound.
    + now destruct o.
    + intros pre' suf' _ Hlt. lia.
  - destruct (match_here ic r (x :: s)) as [o|] eqn:Ho.
    + injection H as <-. exists [], (x :: s), (rest o). simpl.
      split; [reflexivity|]. split; [lia|]. split; [|split].
      * now apply match_here_sound.
      * now destruct o.
      * intros pre' suf' _ Hlt. lia.
    + apply IH in H as (pre & suf & s' & -> & Hst & Hm & Hh & Hleft).
      exists (x :: pre), suf, s'. simpl.
      split; [reflexivity|]. split; [lia|]. split; [assumption|].
      split; [assumption|].
      intros [|y pre'] suf' Heq Hlt; simpl in *.
      * now subst suf'.
      * injection Heq as -> Heq. apply (Hleft pre' suf' Heq). lia.
Qed.

Lemma search_from_none r : forall s pos,
  search_from ic r pos s = None ->
  forall pre suf, s = pre ++ suf -> match_here ic r suf = None.
Proof.
  induction s as [|x s IH]; intros pos H pre suf Heq; simpl in H.
  - destruct pre; [|discriminate]. simpl in Heq. subst suf.
    destruct (match_here ic r []); [discriminate|reflexivity].
  - destruct (match_here ic r (x :: s)) as [o|] eqn:Ho; [discriminate|].
    destruct pre as [|y pre]; simpl in Heq.
    + now subst suf.
    + injection Heq as -> Heq. now apply (IH (S pos) H pre suf).
Qed.

(** The bound on the iterations of a star is never reached. *)
Lemma run_star_fuel r fuel s c :
  length s <= fuel -> star_loop (run ic r) fuel s c = run ic (Star r) s c.
Proof.
  intros H. simpl.
  apply (star_loop_fuel (run ic r) (fun s c o => run_prefix r s c o)); lia.
Qed.

Lemma match_here_shorter r s o x p :
  match_here ic r s = Some o -> matched o = x :: p ->
  length (rest o) < length s.
Proof.
  unfold match_here. intros H Hm.
  destruct (run ic r s []) as [|o' l] eqn:Hr; [discriminate|].
  injection H as ->.
  assert (Hin : In o (run ic r s [])) by (rewrite Hr; now left).
  apply run_prefix in Hin. rewrite Hin, Hm, length_app. simpl. lia.
Qed.

(** Nor are the bounds of the loops of [re.sub] and [re.split]. *)
Lemma sub_loop_fuel r repl : forall fuel1 fuel2 s,
  length s < fuel1 -> length s < fuel2 ->
  sub_loop ic r repl fuel1 s = sub_loop ic r repl fuel2 s.
Proof.
  induction fuel1 as [|fuel1 IH]; intros fuel2 s H1 H2; [lia|].
  destruct fuel2 as [|fuel2]; [lia|]. cbn [sub_loop].
  assert (Hskip : match s with
                  | [] => []
                  | x :: s' => x :: sub_loop ic r repl fuel1 s'
                  end
                  = match s with
                    | [] => []
                    | x :: s' => x :: sub_loop ic r repl fuel2 s'
                    end).
  { destruct s as [|x s]; [reflexivity|]. simpl in *. f_equal. apply IH; lia. }
  destruct (match_here ic r s) as [o|] eqn:Ho; [|exact Hskip].
  destruct (matched o) as [|x p] eqn:Hm; [exact Hskip|].
  pose proof (match_here_shorter r s o x p Ho Hm).
  f_equal. apply IH; lia.
Qed.

Lemma split_loop_fuel r : forall fuel1 fuel2 cur s,
  length s < fuel1 -> length s < fuel2 ->
  split_loop ic r fuel1 cur s = split_loop ic r fuel2 cur s.
Proof.
  induction fuel1 as [|fuel1 IH]; intros fuel2 cur s H1 H2; [lia|].
  destruct fuel2 as [|fuel2]; [lia|]. cbn [split_loop].
  assert (Hskip : match s with
                  | [] => [cur]
                  | x :: s' => split_loop ic r fuel1 (cur ++ [x]) s'
                  end
                  = match s with
                    | [] => [cur]
                    | x :: s' => split_loop ic r fuel2 (cur ++ [x]) s'
                    end).
  { destruct s as [|x s]; [reflexivity|]. simpl in *. apply IH; lia. }
  destruct (match_here ic r s) as [o|] eqn:Ho; [|exact Hskip].
  destruct (matched o) as [|x p] eqn:Hm; [exact Hskip|].
  pose proof (match_here_shorter r s o x p Ho Hm).
  f_equal. apply IH; lia.
Qed.

End Matcher.

(** ** smart_title *)

Arguments mem : simpl never.

Lemma title_loop_succ : forall words i titled,
  title_loop (S i) words titled = titled ++ map render_word words.
Proof.
  induction words as [|w words IH]; intros i titled; simpl.
  - now rewrite app_nil_r.
  - cbn [title_loop map Nat.eqb orb]. unfold render_word at 1.
    destruct (mem (lower w) SMALL_WORDS); cbn [negb];
      rewrite IH, <- app_assoc; reflexivity.
Qed.

Lemma title_loop_words (words : list pystr) :
  title_loop 0 words [] = titled_words words.
Proof.
  destruct words as [|w words]; simpl; [reflexivity|].
  now rewrite title_loop_succ.
Qed.

Lemma smart_title_eq (text : pystr) :
  smart_title text = join " " (titled_words (split text)).
Proof. unfold smart_title. now rewrite title_loop_words. Qed.

Lemma lower_idem (w : pystr) : lower (lower w) = lower w.
Proof.
  unfold lower. rewrite map_map. apply map_ext. apply lower_char_idem.
Qed.

Lemma lower_capitalize (w : pystr) : lower (capitalize w) = lower w.
Proof.
  destruct w as [|x w]; simpl; [reflexivity|].
  now rewrite lower_upper_char, lower_idem.
Qed.

Lemma capitalize_idem (w : pystr) : capitalize (capitalize w) = capitalize w.
Proof.
  destruct w as [|x w]; simpl; [reflexivity|].
  now rewrite upper_char_idem, lower_idem.
Qed.

Lemma render_word_idem (w : pystr) : render_word (render_word w) = render_word w.
Proof.
  unfold render_word.
  destruct (mem (lower w) SMALL_WORDS) eqn:Hw.
  - now rewrite lower_idem, Hw.
  - now rewrite lower_capitalize, Hw, capitalize_idem.
Qed.

Lemma titled_words_idem (ws : list pystr) :
  titled_words (titled_words ws) = titled_words ws.
Proof.
  destruct ws as [|w ws]; simpl; [reflexivity|].
  rewrite capitalize_idem, map_map. f_equal.
  apply map_ext. apply render_word_idem.
Qed.

Lemma nospace_lower (w : pystr) :
  forallb (fun c => negb (is_space c)) (lower w)
  = forallb (fun c => negb (is_space c)) w.
Proof.
  induction w as [|x w IH]; simpl; [reflexivity|].
  now rewrite is_space_lower_char, IH.
Qed.

Lemma is_word_lower (w : pystr) : is_word w -> is_word (lower w).
Proof.
  intros [Hne Hsp]. split.
  - destruct w; [contradiction|discriminate].
  - now rewrite nospace_lower.
Qed.

Lemma is_word_capitalize (w : pystr) : is_word w -> is_word (capitalize w).
Proof.
  intros [Hne Hsp]. destruct w as [|x w]; [contradiction|].
  split; [discriminate|]. simpl in *.
  apply andb_true_iff in Hsp as [Hx Hw].
  rewrite is_space_upper_char, Hx. simpl.
  now rewrite nospace_lower.
Qed.

Lemma is_word_render (w : pystr) : is_word w -> is_word (render_word w).
Proof.
  intros H. unfold render_word.
  destruct (mem (lower w) SMALL_WORDS);
    [now apply is_word_lower | now apply is_word_capitalize].
Qed.

Lemma titled_words_are_words (ws : list pystr) :
  Forall is_word ws -> Forall is_word (titled_words ws).
Proof.
  intros H. destruct H as [|w ws Hw Hws]; simpl; constructor.
  - now apply is_word_capitalize.
  - apply Forall_map. eapply Forall_impl; [|exact Hws].
    apply is_word_render.
Qed.

Lemma split_from_words : forall s cur,
  forallb (fun c => negb (is_space c)) cur = true ->
  Forall is_word (split_from cur s).
Proof.
  induction s as [|x s IH]; intros cur Hcur; simpl.
  - destruct cur as [|y cur]; constructor; [|constructor].
    split; [discriminate|assumption].
  - destruct (is_space x) eqn:Hx.
    + destruct cur as [|y cur]; [now apply IH|].
      constructor; [|now apply IH].
      split; [discriminate|assumption].
    + apply IH. rewrite forallb_app, Hcur. simpl. now rewrite Hx.
Qed.

Lemma split_words (text : pystr) : Forall is_word (split text).
Proof. now apply split_from_words. Qed.

Lemma split_from_word : forall w cur tl,
  forallb (fun c => negb (is_space c)) w = true ->
  split_from cur (w ++ tl) = split_from (cur ++ w) tl.
Proof.
  induction w as [|x w IH]; intros cur tl Hw; simpl in *.
  - now rewrite app_nil_r.
  - apply andb_true_iff in Hw as [Hx Hw].
    apply negb_true_iff in Hx. rewrite Hx.
    rewrite IH by assumption. now rewrite <- app_assoc.
Qed.

Lemma split_join (ws : list pystr) :
  Forall is_word ws -> split (join " " ws) = ws.
Proof.
  unfold split. induction 1 as [|w ws [Hne Hsp] Hws IH]; [reflexivity|].
  destruct ws as [|w2 ws].
  - simpl. rewrite <- (app_nil_r w) at 1.
    rewrite split_from_word by assumption. simpl.
    destruct w; [contradiction|reflexivity].
  - change (join " " (w :: w2 :: ws))
      with (w ++ " "%char :: join " " (w2 :: ws)).
    rewrite split_from_word by assumption.
    change (split_from ([] ++ w) (" "%char :: join " " (w2 :: ws)))
      with (match w with
            | [] => split_from [] (join " " (w2 :: ws))
            | _ => w :: split_from [] (join " " (w2 :: ws))
            end).
    rewrite IH. destruct w; [contradiction|reflexivity].
Qed.

Lemma leading_space_word (w tl : pystr) :
  is_word w -> leading_space (w ++ tl) = false.
Proof.
  intros [Hne Hsp]. destruct w as [|x w]; [contradiction|].
  simpl in *. apply andb_true_iff in Hsp as [Hx _].
  now apply negb_true_iff in Hx.
Qed.

Lemma double_space_word : forall w tl,
  forallb (fun c => negb (is_space c)) w = true ->
  double_space (w ++ tl) = double_space tl.
Proof.
  induction w as [|x w IH]; intros tl Hw; [reflexivity|].
  simpl in Hw. apply andb_true_iff in Hw as [Hx Hw].
  apply negb_true_iff in Hx.
  change ((x :: w) ++ tl) with (x :: (w ++ tl)).
  specialize (IH tl Hw).
  simpl. rewrite Hx. simpl.
  destruct (w ++ tl) as [|y l] eqn:Hl.
  - destruct w; [|discriminate]. simpl in Hl. now subst tl.
  - exact IH.
Qed.

Lemma last_of_word (w : pystr) :
  is_word w -> exists x w', rev w = x :: w' /\ is_space x = false.
Proof.
  intros [Hne Hsp].
  destruct (rev w) as [|x w'] eqn:Hr.
  - apply (f_equal (@rev ascii)) in Hr. rewrite rev_involutive in Hr.
    now subst w.
  - exists x, w'. split; [reflexivity|].
    assert (Hin : In x w) by (apply in_rev; rewrite Hr; now left).
    rewrite forallb_forall in Hsp. specialize (Hsp x Hin).
    now apply negb_true_iff in Hsp.
Qed.

Lemma join_words_tidy (ws : list pystr) :
  Forall is_word ws -> tidy (join " " ws).
Proof.
  induction 1 as [|w ws Hw Hws IH]; [now repeat split|].
  destruct ws as [|w2 ws].
  - simpl. repeat split.
    + rewrite <- (app_nil_r w). rewrite double_space_word; [reflexivity|].
      apply Hw.
    + rewrite <- (app_nil_r w). now apply leading_space_word.
    + unfold trailing_space.
      destruct (last_of_word w Hw) as (x & w' & -> & Hx). exact Hx.
  - change (join " " (w :: w2 :: ws))
      with (w ++ " "%char :: join " " (w2 :: ws)).
    destruct IH as (Hd & Hl & Ht).
    assert (HJne : join " " (w2 :: ws) <> []).
    { inversion Hws as [|? ? [Hne _] _]; subst.
      destruct w2; [contradiction|]. destruct ws; discriminate. }
    remember (join " " (w2 :: ws)) as J eqn:HJ. clear HJ.
    repeat split.
    + rewrite double_space_word by apply Hw.
      destruct J as [|y l]; [reflexivity|]. simpl in Hl.
      change (double_space (" "%char :: y :: l))
        with ((is_space " " && is_space y) || double_space (y :: l)).
      rewrite Hl, Hd. reflexivity.
    + now apply leading_space_word.
    + unfold trailing_space in *. rewrite rev_app_distr.
      change (rev (" "%char :: J)) with (rev J ++ [" "%char]).
      destruct (rev J) as [|y l] eqn:Hj.
      * exfalso. apply HJne. apply (f_equal (@rev ascii)) in Hj.
        now rewrite rev_involutive in Hj.
      * exact Ht.
Qed.

Lemma smart_title_tidy (text : pystr) : tidy (smart_title text).
Proof.
  rewrite smart_title_eq. apply join_words_tidy.
  apply titled_words_are_words, split_words.
Qed.

Lemma smart_title_idem (text : pystr) :
  smart_title (smart_title text) = smart_title text.
Proof.
  rewrite !smart_title_eq.
  rewrite split_join by (apply titled_words_are_words, split_words).
  now rewrite titled_words_idem.
Qed.

(** ** The tokenizer: splitting *)

Lemma delim_class (x : ascii) :
  cls_match false false [CChar "."; CChar "-"; CChar "_"; CSpace] x = is_delim x.
Proof. all_chars x; reflexivity. Qed.

Lemma match_here_delim (s : pystr) :
  match_here false delim_pattern s =
  match s with
  | x :: s' => if is_delim x then Some (mk_out [x] s' []) else None
  | [] => None
  end.
Proof.
  unfold match_here, delim_pattern. destruct s as [|x s]; [reflexivity|].
  cbn [run]. rewrite delim_class. now destruct (is_delim x).
Qed.

(** The pattern of [re.split] never matches the empty string. *)
Lemma delim_pattern_consumes s c o :
  In o (run false delim_pattern s c) -> matched o <> [].
Proof.
  intros H. apply run_sound in H. unfold delim_pattern in H.
  inversion H; subst. discriminate.
Qed.

Lemma split_loop_delim : forall fuel cur s,
  length s < fuel ->
  split_loop false delim_pattern fuel cur s = split_on is_delim cur s.
Proof.
  induction fuel as [|fuel IH]; intros cur s Hlen; [lia|].
  cbn [split_loop]. rewrite match_here_delim.
  destruct s as [|x s]; [reflexivity|].
  simpl in Hlen. cbn [split_on].
  destruct (is_delim x); cbn [matched rest]; [f_equal|]; apply IH; lia.
Qed.

Lemma raw_parts_eq (name : pystr) : raw_parts name = split_on is_delim [] name.
Proof. unfold raw_parts, re_split. apply split_loop_delim. lia. Qed.

Section SplitOn.

Variable p : ascii -> bool.

Lemma split_on_free : forall s cur,
  forallb (fun c => negb (p c)) cur = true ->
  Forall (fun part => forallb (fun c => negb (p c)) part = true)
         (split_on p cur s).
Proof.
  induction s as [|x s IH]; intros cur Hcur; simpl.
  - now constructor.
  - destruct (p x) eqn:Hx.
    + constructor; [assumption|]. now apply IH.
    + apply IH. rewrite forallb_app, Hcur. simpl. now rewrite Hx.
Qed.

Lemma split_on_length : forall s cur,
  length (split_on p cur s) = S (length (filter p s)).
Proof.
  induction s as [|x s IH]; intros cur; simpl; [reflexivity|].
  destruct (p x); simpl; now rewrite IH.
Qed.

Lemma split_on_weave : forall s cur,
  weave (split_on p cur s) (filter p s) = cur ++ s.
Proof.
  induction s as [|x s IH]; intros cur; simpl.
  - now rewrite app_nil_r.
  - destruct (p x); simpl.
    + now rewrite IH.
    + rewrite IH. now rewrite <- app_assoc.
Qed.

Lemma split_on_empty_part : forall a cur d1 d2 b,
  p d1 = true -> p d2 = true ->
  In [] (split_on p cur (a ++ d1 :: d2 :: b)).
Proof.
  induction a as [|x a IH]; intros cur d1 d2 b H1 H2; simpl.
  - rewrite H1, H2. right. now left.
  - destruct (p x); [right|]; now apply IH.
Qed.

End SplitOn.

(** ** The tokenizer: the extension pattern *)

Ltac inv_match H := inversion H; subst; clear H.

Ltac inv_matches :=
  repeat match goal with
  | H : matches _ Eps _ _ _ _ _ |- _ => inv_match H
  | H : matches _ (Chr _) _ _ _ _ _ |- _ => inv_match H
  | H : matches _ (Cls _ _) _ _ _ _ _ |- _ => inv_match H
  | H : matches _ (Cat _ _) _ _ _ _ _ |- _ => inv_match H
  | H : matches _ (Alt _ _) _ _ _ _ _ |- _ => inv_match H
  | H : matches _ (Group _ _) _ _ _ _ _ |- _ => inv_match H
  end.

(** The pattern of [re.sub] never matches the empty string. *)
Lemma ext_pattern_consumes s c o :
  In o (run false ext_pattern s c) -> matched o <> [].
Proof.
  intros H. apply run_sound in H. unfold ext_pattern, Plus in H.
  inv_matches. discriminate.
Qed.

(** ** The tokenizer: year and season/episode patterns *)

Lemma py_int_digits (s : pystr) :
  all_digits s -> s <> [] -> py_int s = Ok (digits_value s).
Proof.
  unfold all_digits, py_int. intros Hd Hne.
  destruct s; [contradiction|]. now rewrite Hd.
Qed.

Lemma digit_class ic x : cls_match ic false [CDigit] x = is_digit x.
Proof. unfold cls_match. simpl. now rewrite orb_false_r. Qed.

Lemma chr_match_exact a x : chr_match false a x = true <-> x = a.
Proof. unfold chr_match. apply Ascii.eqb_eq. Qed.

Lemma chr_match_S x :
  chr_match true "S" x = true <-> x = "S"%char \/ x = "s"%char.
Proof.
  split.
  - all_chars x; intros H; vm_compute in H; try discriminate H; auto.
  - intros [-> | ->]; reflexivity.
Qed.

Lemma chr_match_E x :
  chr_match true "E" x = true <-> x = "E"%char \/ x = "e"%char.
Proof.
  split.
  - all_chars x; intros H; vm_compute in H; try discriminate H; auto.
  - intros [-> | ->]; reflexivity.
Qed.

Lemma chr_match_dash x : chr_match true "-" x = true <-> x = "-"%char.
Proof.
  split.
  - all_chars x; intros H; vm_compute in H; try discriminate H; auto.
  - intros ->; reflexivity.
Qed.

Lemma sep_class x :
  cls_match true false [CChar "x"; CChar "E"] x = true
  <-> In x ["x"; "X"; "e"; "E"]%char.
Proof.
  split.
  - all_chars x; intros H; vm_compute in H; try discriminate H; simpl; auto.
  - intros [<- | [<- | [<- | [<- | []]]]]; reflexivity.
Qed.

Ltac use_digits :=
  repeat match goal with
  | H : cls_match _ false [CDigit] _ = true |- _ => rewrite digit_class in H
  end;
  unfold all_digits; simpl;
  repeat match goal with
  | H : is_digit _ = true |- _ => rewrite H; clear H
  end.

Section Pieces.

Variable ic : bool.

Lemma M_cat_app r1 r2 p1 p2 s c c1 c2 :
  matches ic r1 (p1 ++ p2 ++ s) c p1 (p2 ++ s) c1 ->
  matches ic r2 (p2 ++ s) c1 p2 s c2 ->
  matches ic (Cat r1 r2) ((p1 ++ p2) ++ s) c (p1 ++ p2) s c2.
Proof.
  intros H1 H2. rewrite <- app_assoc. eapply M_cat; eassumption.
Qed.

Lemma opt_chr_inv a s c p s' c' :
  matches ic (Opt (Chr a)) s c p s' c' ->
  c' = c /\ (p = [] \/ exists x, p = [x] /\ chr_match ic a x = true).
Proof.
  unfold Opt. intros H. inv_matches.
  - split; [reflexivity|]. right. eauto.
  - split; [reflexivity|]. now left.
Qed.

Lemma opt_chr_skip a s c : matches ic (Opt (Chr a)) s c [] s c.
Proof. apply M_alt_r. constructor. Qed.

Lemma opt_chr_take a x s c :
  chr_match ic a x = true -> matches ic (Opt (Chr a)) (x :: s) c [x] s c.
Proof. intros H. apply M_alt_l. now constructor. Qed.

Lemma rep2_dig_inv s c p s' c' :
  matches ic (Rep2 Dig) s c p s' c' ->
  c' = c /\ all_digits p /\ length p = 2.
Proof.
  unfold Rep2, Dig. intros H. inv_matches. use_digits. now repeat split.
Qed.

Lemma rep2_dig_intro p s c :
  all_digits p -> length p = 2 -> matches ic (Rep2 Dig) (p ++ s) c p s c.
Proof.
  unfold all_digits. intros Hd Hl.
  destruct p as [|d1 [|d2 [|]]]; try discriminate.
  simpl in Hd. apply andb_true_iff in Hd as [H1 H2].
  rewrite andb_true_r in H2.
  apply (M_cat ic Dig Dig _ c [d1] (d2 :: s) c [d2] s c);
    apply M_cls; now rewrite digit_class.
Qed.

Lemma rep12_dig_inv s c p s' c' :
  matches ic (Rep1_2 Dig) s c p s' c' ->
  c' = c /\ all_digits p /\ (length p = 1 \/ length p = 2).
Proof.
  unfold Rep1_2, Opt, Dig. intros H. inv_matches; use_digits.
  - repeat split. now right.
  - repeat split. now left.
Qed.

Lemma rep12_dig_intro p s c :
  all_digits p -> length p = 1 \/ length p = 2 ->
  matches ic (Rep1_2 Dig) (p ++ s) c p s c.
Proof.
  unfold all_digits. intros Hd [Hl|Hl].
  - destruct p as [|d1 [|]]; try discriminate.
    simpl in Hd. rewrite andb_true_r in Hd.
    apply (M_cat ic Dig (Opt Dig) _ c [d1] s c [] s c).
    + apply M_cls. now rewrite digit_class.
    + apply M_alt_r. constructor.
  - destruct p as [|d1 [|d2 [|]]]; try discriminate.
    simpl in Hd. apply andb_true_iff in Hd as [H1 H2].
    rewrite andb_true_r in H2.
    apply (M_cat ic Dig (Opt Dig) _ c [d1] (d2 :: s) c [d2] s c).
    + apply M_cls. now rewrite digit_class.
    + apply M_alt_l, M_cls. now rewrite digit_class.
Qed.

End Pieces.

(** Every match of the year pattern is four digits. *)
Lemma year_pattern_sound s c p s' c' :
  matches false year_pattern s c p s' c' -> all_digits p /\ length p = 4.
Proof.
  unfold year_pattern. intros H. inv_match H.
  match goal with
  | H : matches _ (Rep2 Dig) _ _ _ _ _ |- _ =>
      apply rep2_dig_inv in H as (_ & Hd & Hl)
  end.
  inv_matches;
    repeat match goal with
    | H : chr_match false _ _ = true |- _ => apply chr_match_exact in H; subst
    end;
    (split; [exact Hd | simpl; now rewrite Hl]).
Qed.

Lemma show_head_sound s c p s' c' :
  matches true show_head s c p s' c' ->
  exists (s_opt season : pystr) (sep : ascii) (episode : pystr),
    p = s_opt ++ season ++ sep :: episode /\
    (s_opt = [] \/ s_opt = "S" \/ s_opt = "s") /\
    all_digits season /\ (length season = 1 \/ length season = 2) /\
    In sep ["x"; "X"; "e"; "E"]%char /\
    all_digits episode /\ length episode = 2 /\
    c' = (2, episode) :: (1, season) :: c.
Proof.
  unfold show_head. intros H. inv_matches.
  match goal with
  | H : matches _ (Opt (Chr _)) _ _ _ _ _ |- _ =>
      apply opt_chr_inv in H as (-> & HS)
  end.
  match goal with
  | H : matches _ (Rep1_2 Dig) _ _ _ _ _ |- _ =>
      apply rep12_dig_inv in H as (-> & Hd1 & Hl1)
  end.
  match goal with
  | H : matches _ (Rep2 Dig) _ _ _ _ _ |- _ =>
      apply rep2_dig_inv in H as (-> & Hd2 & Hl2)
  end.
  match goal with
  | H : cls_match true false _ _ = true |- _ => apply sep_class in H
  end.
  match goal with
  | |- exists _ _ _ _, ((?a ++ ?b) ++ [?x]) ++ ?e = _ /\ _ =>
      exists a, b, x, e
  end.
  split; [now rewrite <- !app_assoc|].
  split.
  { destruct HS as [->|(x0 & -> & Hx)]; [now left|right].
    apply chr_match_S in Hx as [->| ->]; auto. }
  repeat split; assumption.
Qed.

Lemma show_head_complete (s_opt season : pystr) (sep : ascii)
  (episode post : pystr) c :
  (s_opt = [] \/ s_opt = "S" \/ s_opt = "s") ->
  all_digits season -> (length season = 1 \/ length season = 2) ->
  In sep ["x"; "X"; "e"; "E"]%char ->
  all_digits episode -> length episode = 2 ->
  matches true show_head ((s_opt ++ season ++ sep :: episode) ++ post) c
    (s_opt ++ season ++ sep :: episode) post
    ((2, episode) :: (1, season) :: c).
Proof.
  intros HS Hd1 Hl1 Hsep Hd2 Hl2.
  replace (s_opt ++ season ++ sep :: episode)
    with (((s_opt ++ season) ++ [sep]) ++ episode)
    by (now rewrite <- !app_assoc).
  unfold show_head.
  apply M_cat_app with (c1 := (1, season) :: c);
    [|apply M_group; now apply rep2_dig_intro].
  apply M_cat_app with (c1 := (1, season) :: c);
    [|apply M_cls; now apply sep_class].
  apply M_cat_app with (c1 := c);
    [|apply M_group; now apply rep12_dig_intro].
  destruct HS as [->|[->| ->]].
  - apply opt_chr_skip.
  - apply opt_chr_take. reflexivity.
  - apply opt_chr_take. reflexivity.
Qed.

Lemma show_tail_sound s c p s' c' :
  matches true show_tail s c p s' c' ->
  exists last, range_tail p last /\ c' = (3, last) :: c.
Proof.
  unfold show_tail. intros H. inv_matches.
  match goal with
  | H : matches _ (Opt (Chr "-")) _ _ _ _ _ |- _ =>
      apply opt_chr_inv in H as (-> & Hdash)
  end.
  match goal with
  | H : matches _ (Opt (Chr "E")) _ _ _ _ _ |- _ =>
      apply opt_chr_inv in H as (-> & HE)
  end.
  match goal with
  | H : matches _ (Rep2 Dig) _ _ _ _ _ |- _ =>
      apply rep2_dig_inv in H as (-> & Hd & Hl)
  end.
  match goal with
  | |- exists _, range_tail ((?a ++ ?b) ++ ?l) _ /\ _ =>
      exists l; split; [exists a, b|reflexivity]
  end.
  split; [now rewrite <- app_assoc|].
  split.
  { destruct Hdash as [->|(x & -> & Hx)]; [now left|right].
    now apply chr_match_dash in Hx as ->. }
  split; [|now split].
  destruct HE as [->|(x & -> & Hx)]; [now left|right].
  apply chr_match_E in Hx as [->| ->]; auto.
Qed.

Lemma show_tail_complete tail last post c :
  range_tail tail last ->
  matches true show_tail (tail ++ post) c tail post ((3, last) :: c).
Proof.
  intros (dash & e & -> & Hdash & HE & Hd & Hl).
  rewrite app_assoc. unfold show_tail.
  apply M_cat_app with (c1 := c);
    [|apply M_group; now apply rep2_dig_intro].
  apply M_cat_app with (c1 := c).
  - destruct Hdash as [->| ->]; [apply opt_chr_skip|].
    apply opt_chr_take. reflexivity.
  - destruct HE as [->|[->| ->]]; [apply opt_chr_skip| |];
      apply opt_chr_take; reflexivity.
Qed.

Lemma show_pattern_split : show_pattern = show_head +++ Opt show_tail.
Proof. reflexivity. Qed.

Lemma show_pattern_sound s p s' c' :
  matches true show_pattern s [] p s' c' ->
  exists season episode last,
    show_marker p season episode last /\
    lookup 1 c' = Some season /\ lookup 2 c' = Some episode /\
    lookup 3 c' = last.
Proof.
  rewrite show_pattern_split. unfold Opt. intros H. inv_match H.
  match goal with
  | H : matches _ show_head _ _ _ _ _ |- _ =>
      apply show_head_sound in H
        as (s_opt & season & sep & episode & -> & HS & Hd1 & Hl1 & Hsep
            & Hd2 & Hl2 & ->)
  end.
  match goal with
  | H : matches _ (Alt _ _) _ _ _ _ _ |- _ => inv_match H
  end.
  - match goal with
    | H : matches _ show_tail _ _ _ _ _ |- _ =>
        apply show_tail_sound in H as (last & Htail & ->)
    end.
    exists season, episode, (Some last). split; [|now repeat split].
    exists s_opt, sep, p2. rewrite <- !app_assoc. simpl.
    now repeat split.
  - match goal with
    | H : matches _ Eps _ _ _ _ _ |- _ => inv_match H
    end.
    exists season, episode, None. split; [|now repeat split].
    exists s_opt, sep, []. rewrite <- !app_assoc. simpl.
    now repeat split.
Qed.

Lemma show_pattern_complete text season episode last post :
  show_marker text season episode last ->
  exists c', matches true show_pattern (text ++ post) [] text post c'.
Proof.
  intros (s_opt & sep & tail & -> & HS & Hd1 & Hl1 & Hsep & Hd2 & Hl2 & Hlast).
  rewrite show_pattern_split.
  replace (s_opt ++ season ++ sep :: episode ++ tail)
    with ((s_opt ++ season ++ sep :: episode) ++ tail)
    by (now rewrite <- !app_assoc).
  destruct last as [l|].
  - eexists. eapply M_cat_app.
    + now apply show_head_complete.
    + apply M_alt_l. apply show_tail_complete. exact Hlast.
  - subst tail. eexists. eapply M_cat_app.
    + now apply show_head_complete.
    + apply M_alt_r. constructor.
Qed.

(** ** The tokenizer: detection never raises *)

Lemma detect_year_of_spec (name : pystr) :
  match re_search false year_pattern name with
  | Some m => detect_year_of name = Ok (Some (digits_value (m_text m)))
  | None => detect_year_of name = Ok None
  end.
Proof.
  unfold detect_year_of.
  destruct (re_search false year_pattern name) as [m|] eqn:Hs; [|reflexivity].
  apply search_from_some in Hs as (pre & suf & s' & _ & _ & Hm & _).
  apply year_pattern_sound in Hm as [Hd Hl].
  simpl. rewrite py_int_digits; [reflexivity|assumption|].
  intros E. rewrite E in Hl. discriminate.
Qed.

Lemma detect_show_info_of_spec (name : pystr) :
  match re_search true show_pattern name with
  | Some m =>
      exists season episode last,
        show_marker (m_text m) season episode last /\
        group m 1 = Some season /\ group m 2 = Some episode /\
        group m 3 = last /\
        detect_show_info_of name =
        Ok (Some (digits_value season,
                  episodes_of (digits_value episode)
                              (option_map digits_value last)))
  | None => detect_show_info_of name = Ok None
  end.
Proof.
  unfold detect_show_info_of.
  destruct (re_search true show_pattern name) as [m|] eqn:Hs; [|reflexivity].
  apply search_from_some in Hs as (pre & suf & s' & _ & _ & Hm & _).
  apply show_pattern_sound in Hm
    as (season & episode & last & Hmark & H1 & H2 & H3).
  exists season, episode, last. simpl group. rewrite H1, H2, H3.
  repeat split; try assumption.
  destruct Hmark
    as (s_opt & sep & tail & _ & _ & Hd1 & Hl1 & _ & Hd2 & Hl2 & Hlast).
  simpl py_int_opt.
  rewrite (py_int_digits season Hd1)
    by (intros E; rewrite E in Hl1; destruct Hl1; discriminate).
  rewrite (py_int_digits episode Hd2)
    by (intros E; rewrite E in Hl2; discriminate).
  simpl bind. destruct last as [l|]; [|reflexivity].
  destruct Hlast as (dash & e & _ & _ & _ & Hd3 & Hl3).
  destruct l as [|d l]; [discriminate|].
  cbn [str_truthy py_int_opt].
  rewrite (py_int_digits (d :: l) Hd3) by discriminate.
  reflexivity.
Qed.

Lemma clean_parts_ok (filename : pystr) (dy ds : bool) :
  exists year info,
    (if dy then detect_year_of (strip_ext filename) else Ok None) = Ok year /\
    (if ds then detect_show_info_of (strip_ext filename) else Ok None)
    = Ok info /\
    clean_parts filename dy ds =
    Ok (clean_loop year (raw_parts (strip_ext filename)) [], year, info).
Proof.
  unfold clean_parts.
  assert (Hy : exists year,
             (if dy then detect_year_of (strip_ext filename) else Ok None)
             = Ok year).
  { destruct dy; [|now eexists].
    pose proof (detect_year_of_spec (strip_ext filename)) as H.
    destruct (re_search false year_pattern (strip_ext filename));
      rewrite H; now eexists. }
  assert (Hi : exists info,
             (if ds then detect_show_info_of (strip_ext filename) else Ok None)
             = Ok info).
  { destruct ds; [|now eexists].
    pose proof (detect_show_info_of_spec (strip_ext filename)) as H.
    destruct (re_search true show_pattern (strip_ext filename)).
    - destruct H as (? & ? & ? & _ & _ & _ & _ & ->). now eexists.
    - rewrite H. now eexists. }
  destruct Hy as [year Hy], Hi as [info Hi].
  exists year, info. rewrite Hy, Hi. now repeat split.
Qed.

(** The optional second number is taken whenever the input has one. *)
Lemma show_tail_greedy s o :
  match_here true show_pattern s = Some o ->
  lookup 3 (groups o) = None ->
  forall p s' c', ~ matches true show_tail (rest o) (groups o) p s' c'.
Proof.
  unfold match_here. rewrite show_pattern_split. unfold Opt. cbn [run].
  destruct (run true show_head s []) as [|o1 l] eqn:Hh; [discriminate|].
  cbn [flat_map].
  destruct (run true show_tail (rest o1) (groups o1)) as [|t l'] eqn:Ht.
  - simpl. intros H Hno p s' c' Hm. injection H as <-. simpl in Hm.
    apply run_complete in Hm. rewrite Ht in Hm. destruct Hm.
  - simpl. intros H Hno. injection H as <-. simpl in Hno.
    assert (Hin : In t (run true show_tail (rest o1) (groups o1)))
      by (rewrite Ht; now left).
    apply run_sound, show_tail_sound in Hin as (last & _ & E).
    rewrite E in Hno. discriminate.
Qed.

(** ** parse_show: the two loops *)

Lemma any_episode_false (eps : list Z) (part : pystr) :
  (forall e, In e eps -> part <> py_str e) -> any_episode eps part = false.
Proof.
  intros H. unfold any_episode.
  destruct (existsb _ eps) eqn:E; [|reflexivity].
  apply existsb_exists in E as (e & He & Heq).
  apply str_eqb_eq in Heq. exfalso. now apply (H e He).
Qed.

Lemma first_episode_token_none (eps : list Z) : forall parts i token_index,
  (forall part, In part parts -> any_episode eps part = false) ->
  first_episode_token eps i parts token_index = token_index.
Proof.
  induction parts as [|part parts IH]; intros i token_index H; simpl.
  - reflexivity.
  - rewrite (H part) by now left. apply IH. intros q Hq. apply H. now right.
Qed.

Lemma last_episode_token_ok (eps : list Z) (parts : list pystr) :
  forall range last,
    (forall i, In i range -> i < length parts) ->
    exists n, last_episode_token eps parts range last = Ok n.
Proof.
  induction range as [|i range IH]; intros last H; simpl.
  - now eexists.
  - unfold index.
    destruct (nth_error parts i) as [part|] eqn:Hn.
    + simpl. destruct (any_episode eps part); [|now eexists].
      apply IH. intros j Hj. apply H. now right.
    + apply nth_error_None in Hn.
      specialize (H i (or_introl eq_refl)). lia.
Qed.

(** ** Ranges *)

Lemma py_range_length (a b : Z) : length (py_range a b) = Z.to_nat (b - a).
Proof. unfold py_range. now rewrite length_map, length_seq. Qed.

Lemma py_range_nth (a b : Z) (i : nat) :
  i < length (py_range a b) ->
  nth_error (py_range a b) i = Some (a + Z.of_nat i)%Z.
Proof.
  rewrite py_range_length. intros H. unfold py_range.
  rewrite nth_error_map, nth_error_seq.
  destruct (Nat.ltb_spec i (Z.to_nat (b - a))); [reflexivity|lia].
Qed.

(** * The claims *)

(** ** Worked inputs *)

Example parse_movie_spaced :
  parse_movie "The Matrix 1999 1080p.mkv" = Ok (mk_movie "The Matrix" (Some 1999%Z)).
Proof. vm_compute. reflexivity. Qed.

Example parse_show_spaced :
  parse_show "Show Name 1x02 2 Episode Title.mkv"
  = Ok (mk_show "Show Name 1x02" (Some 1%Z) (Some [2%Z]) (Some ("Episode Title" : pystr))).
Proof. vm_compute. reflexivity. Qed.

Example clean_parts_range :
  clean_parts "Show S01E10-E12" false true
  = Ok (["show" : pystr; "s01e10" : pystr; "e12" : pystr], None,
        Some (1%Z, [10%Z; 11%Z; 12%Z])).
Proof. vm_compute. reflexivity. Qed.

(** C1 (a defect of the code).  On "The.Matrix.1999.1080p.mkv" the pattern
    [(\.[^.]+)+$] matches from the first dot to the end, so [re.sub] leaves
    the name "The": [parse_movie] returns the title "The" and no year, where
    its docstring and the claim give ("The Matrix", 1999). *)
Theorem parse_movie_matrix :
  strip_ext "The.Matrix.1999.1080p.mkv" = "The" /\
  parse_movie "The.Matrix.1999.1080p.mkv" = Ok (mk_movie "The" None).
Proof. split; vm_compute; reflexivity. Qed.

(** C2 (a defect of the code, the same one).  On
    "Show.Name.S01E02.Episode.Title.mkv" the name left by [re.sub] is
    "Show", no season/episode marker is found in it and [parse_show] returns
    the title "Show" with every other field [None]. *)
Theorem parse_show_dotted :
  strip_ext "Show.Name.S01E02.Episode.Title.mkv" = "Show" /\
  parse_show "Show.Name.S01E02.Episode.Title.mkv"
  = Ok (mk_show "Show" None None None).
Proof. split; vm_compute; reflexivity. Qed.

(** C3 (a defect of the code).  When the second captured number is smaller
    than the first, show info is detected and the episode list is empty:
    [range(episode, int(last_episode) + 1)] drops the episode that was
    captured, on "Show S01E05-E03" and also when a date follows the marker,
    as in "Show S01E05-01-2020".  The other branch of the same [if] keeps
    it ("Show S01E05" gives [5]), and the docstrings promise the detected
    episode number(s). *)
Theorem episodes_empty_on_descending_range :
  clean_parts "Show S01E05-E03" false true
  = Ok (["show" : pystr; "s01e05" : pystr; "e03" : pystr], None,
        Some (1%Z, [])) /\
  clean_parts "Show S01E05-01-2020" false true
  = Ok (["show" : pystr; "s01e05" : pystr; "01" : pystr; "2020" : pystr],
        None, Some (1%Z, [])) /\
  clean_parts "Show S01E05" false true
  = Ok (["show" : pystr; "s01e05" : pystr], None, Some (1%Z, [5%Z])).
Proof. repeat split; vm_compute; reflexivity. Qed.

(** What the [if detect_show_info:] block computes, as the code has it:
    the episode list counts up by one from the first captured episode
    number; without a second captured number it is that number alone, and
    with one it is [range(first, last + 1)], which has [last + 1 - first]
    elements, so none when the second number is below the first. *)
Lemma episodes_contiguous (filename : pystr) (dy : bool)
  (parts : list pystr) (year : option Z) (sn : Z) (eps : list Z) :
  clean_parts filename dy true = Ok (parts, year, Some (sn, eps)) ->
  exists m first_txt,
    re_search true show_pattern (strip_ext filename) = Some m /\
    group m 2 = Some first_txt /\
    (forall i, i < length eps ->
               nth_error eps i = Some (digits_value first_txt + Z.of_nat i)%Z) /\
    match group m 3 with
    | Some last_txt =>
        eps = py_range (digits_value first_txt) (digits_value last_txt + 1) /\
        length eps
        = Z.to_nat (digits_value last_txt + 1 - digits_value first_txt) /\
        (eps <> [] <-> (digits_value first_txt <= digits_value last_txt)%Z)
    | None => eps = [digits_value first_txt]
    end.
Proof.
  intros H.
  destruct (clean_parts_ok filename dy true) as (y & info & _ & Hi & Hc).
  rewrite Hc in H. injection H as _ _ ->.
  pose proof (detect_show_info_of_spec (strip_ext filename)) as Hs.
  destruct (re_search true show_pattern (strip_ext filename)) as [m|];
    [|rewrite Hs in Hi; discriminate].
  destruct Hs as (season & episode & last & _ & _ & H2 & H3 & Hd).
  rewrite Hd in Hi. injection Hi as <- <-.
  exists m, episode. split; [reflexivity|]. split; [assumption|].
  rewrite H3. destruct last as [l|]; simpl.
  - split; [apply py_range_nth|]. split; [reflexivity|].
    split; [apply py_range_length|].
    split.
    + intros Hne.
      destruct (Z_le_gt_dec (digits_value episode) (digits_value l));
        [assumption|].
      exfalso. apply Hne. apply length_zero_iff_nil.
      rewrite py_range_length. lia.
    + intros Hle E. apply (f_equal (@length Z)) in E.
      rewrite py_range_length in E. simpl in E. lia.
  - split; [|reflexivity].
    intros [|i] Hi; simpl in *; [now rewrite Z.add_0_r|lia].
Qed.

Lemma episodes_contiguous_witness :
  exists m first_txt,
    re_search true show_pattern (strip_ext "Show S02E05-E07") = Some m /\
    group m 2 = Some first_txt /\
    (forall i, i < length [5%Z; 6%Z; 7%Z] ->
               nth_error [5%Z; 6%Z; 7%Z] i
               = Some (digits_value first_txt + Z.of_nat i)%Z) /\
    match group m 3 with
    | Some last_txt =>
        [5%Z; 6%Z; 7%Z]
        = py_range (digits_value first_txt) (digits_value last_txt + 1) /\
        length [5%Z; 6%Z; 7%Z]
        = Z.to_nat (digits_value last_txt + 1 - digits_value first_txt) /\
        ([5%Z; 6%Z; 7%Z] <> []
         <-> (digits_value first_txt <= digits_value last_txt)%Z)
    | None => [5%Z; 6%Z; 7%Z] = [digits_value first_txt]
    end.
Proof.
  apply (episodes_contiguous "Show S02E05-E07" false
           ["show" : pystr; "s02e05" : pystr; "e07" : pystr] None 2%Z
           [5%Z; 6%Z; 7%Z]).
  vm_compute. reflexivity.
Defined.

(** C4, the claim as stated fails: in "S01E0203" the second number "03" is
    captured although neither '-E' nor '-' introduces it, and the episodes
    are [2, 3]; the pattern worded by the specification captures no second
    number there. *)
Lemma second_episode_without_dash :
  clean_parts "S01E0203" false true
  = Ok (["s01e0203" : pystr], None, Some (1%Z, [2%Z; 3%Z])) /\
  option_map (fun m => group m 3) (re_search true show_pattern "S01E0203")
  = Some (Some ("03" : pystr)) /\
  option_map (fun m => group m 3) (re_search true spec_show_pattern "S01E0203")
  = Some None.
Proof. repeat split; vm_compute; reflexivity. Qed.

(** C4, amended.  With [detect_show_info] enabled the tokenizer returns, and
    season/episode info is found exactly when the name (after the extension
    strip) contains a marker: an optional 'S', a 1-2 digit season, 'x' or
    'E' in either case, a 2-digit episode, and optionally a second 2-digit
    episode that an optional '-' and then an optional 'E' (either case) may
    introduce.  The marker used starts at the leftmost position where one
    starts, its second episode is taken whenever the input has one there,
    and season and episodes are read from it. *)
Theorem show_info_recognition (filename : pystr) (dy : bool) :
  exists parts year info,
    clean_parts filename dy true = Ok (parts, year, info) /\
    match info with
    | Some (sn, eps) =>
        exists pre text post season episode last,
          strip_ext filename = pre ++ text ++ post /\
          show_marker text season episode last /\
          sn = digits_value season /\
          eps = episodes_of (digits_value episode)
                            (option_map digits_value last) /\
          (forall pre' text' post' season' episode' last',
              strip_ext filename = pre' ++ text' ++ post' ->
              show_marker text' season' episode' last' ->
              length pre <= length pre') /\
          (last = None ->
           forall tail l post', post = tail ++ post' -> ~ range_tail tail l)
    | None =>
        forall pre text post season episode last,
          strip_ext filename = pre ++ text ++ post ->
          ~ show_marker text season episode last
    end.
Proof.
  destruct (clean_parts_ok filename dy true) as (y & info & _ & Hi & Hc).
  exists (clean_loop y (raw_parts (strip_ext filename)) []), y, info.
  split; [exact Hc|].
  pose proof (detect_show_info_of_spec (strip_ext filename)) as Hs.
  destruct (re_search true show_pattern (strip_ext filename)) as [m|] eqn:Hr.
  - destruct Hs as (season & episode & last & Hmark & _ & _ & H3 & Hd).
    rewrite Hd in Hi. injection Hi as <-.
    apply search_from_some in Hr
      as (pre & suf & s' & Hname & _ & Hm & Hh & Hleft).
    pose proof (matches_prefix _ _ _ _ _ _ _ Hm) as Hsuf.
    exists pre, (m_text m), s', season, episode, last.
    split; [now rewrite Hname, Hsuf|].
    split; [assumption|]. split; [reflexivity|]. split; [reflexivity|].
    split.
    + intros pre' text' post' season' episode' last' Hname' Hmark'.
      destruct (le_lt_dec (length pre) (length pre')) as [|Hlt]; [assumption|].
      exfalso.
      specialize (Hleft pre' (text' ++ post') Hname' Hlt).
      destruct (show_pattern_complete _ _ _ _ post' Hmark') as [c' Hc'].
      rewrite match_here_none in Hleft. exact (Hleft _ _ _ Hc').
    + intros -> tail l post' -> Htail.
      apply (show_tail_greedy _ _ Hh H3 tail post' ((3, l) :: m_groups m)).
      now apply show_tail_complete.
  - rewrite Hs in Hi. injection Hi as <-.
    intros pre text post season episode last Hname Hmark.
    pose proof (search_from_none _ _ _ _ Hr pre (text ++ post) Hname) as Hn.
    destruct (show_pattern_complete _ _ _ _ post Hmark) as [c' Hc'].
    rewrite match_here_none in Hn. exact (Hn _ _ _ Hc').
Qed.

Lemma show_info_recognition_witness :
  exists pre text post season episode last,
    strip_ext "Show S02E05-E07" = pre ++ text ++ post /\
    show_marker text season episode last /\
    2%Z = digits_value season /\
    [5%Z; 6%Z; 7%Z]
    = episodes_of (digits_value episode) (option_map digits_value last).
Proof.
  destruct (show_info_recognition "Show S02E05-E07" false)
    as (parts & year & info & Hc & Hinfo).
  vm_compute in Hc. injection Hc as _ _ <-.
  destruct Hinfo
    as (pre & text & post & season & episode & last & H1 & H2 & H3 & H4 & _).
  exists pre, text, post, season, episode, last. now repeat split.
Defined.

(** C5, the claim as stated fails: two delimiters in a row leave an empty
    part between them, where a split on maximal runs leaves none. *)
Lemma raw_parts_empty_part :
  raw_parts (strip_ext "a--b") = ["a" : pystr; "" : pystr; "b" : pystr] /\
  In [] (raw_parts (strip_ext "a--b")) /\
  split_on_runs [] (strip_ext "a--b") = ["a" : pystr; "b" : pystr] /\
  clean_parts "a--b" false false
  = Ok (["a" : pystr; "" : pystr; "b" : pystr], None, None).
Proof. repeat split; vm_compute; auto. Qed.

(** C5, amended.  The name is split at every single delimiter character
    ('.', '-', '_' or whitespace): the raw parts are free of delimiters,
    there is one more part than the name has delimiter characters, the parts
    put back around those delimiters in order give the name, and two
    delimiters in a row leave an empty part. *)
Theorem raw_parts_between_delimiters (name : pystr) :
  Forall (fun part => forallb (fun c => negb (is_delim c)) part = true)
         (raw_parts name) /\
  length (raw_parts name) = S (length (filter is_delim name)) /\
  weave (raw_parts name) (filter is_delim name) = name /\
  (forall a d1 d2 b,
      name = a ++ d1 :: d2 :: b -> is_delim d1 = true -> is_delim d2 = true ->
      In [] (raw_parts name)).
Proof.
  rewrite raw_parts_eq. split; [now apply split_on_free|].
  split; [apply split_on_length|].
  split; [apply split_on_weave|].
  intros a d1 d2 b -> H1 H2. now apply split_on_empty_part.
Qed.

Lemma raw_parts_between_delimiters_witness :
  In [] (raw_parts "Show Name - S01E02").
Proof.
  destruct (raw_parts_between_delimiters "Show Name - S01E02")
    as (_ & _ & _ & H).
  apply (H ("Show Name" : pystr) " "%char "-"%char (" S01E02" : pystr));
    reflexivity.
Defined.


(** C7.  On an ASCII string [smart_title] is idempotent. *)
Theorem smart_title_idempotent (s : pystr) :
  ascii_only s = true -> smart_title (smart_title s) = smart_title s.
Proof. intros _. apply smart_title_idem. Qed.

Lemma smart_title_idempotent_witness :
  smart_title (smart_title "the LORD   of THE rings")
  = smart_title "the LORD   of THE rings".
Proof.
  apply (smart_title_idempotent "the LORD   of THE rings"). reflexivity.
Defined.

(** C8.  No filename makes the parsing functions raise: [clean_parts]
    returns for both settings of each flag, [parse_movie] and [parse_show]
    return a result, and when the year pattern, respectively the
    season/episode pattern, is nowhere in the name the year, respectively
    season, episodes and episode title, are [None].  The loops of [re.sub]
    and [re.split] end before their bound: a larger bound gives the same
    name and the same parts.  ([smart_title] calls nothing that can raise
    and is a total function.) *)
Theorem parsing_total (filename : pystr) :
  (forall fuel, length filename < fuel ->
                sub_loop false ext_pattern [] fuel filename
                = strip_ext filename) /\
  (forall fuel, length (strip_ext filename) < fuel ->
                split_loop false delim_pattern fuel [] (strip_ext filename)
                = raw_parts (strip_ext filename)) /\
  (forall dy ds, exists parts year info,
      clean_parts filename dy ds = Ok (parts, year, info)) /\
  (exists t y,
      parse_movie filename = Ok (mk_movie t y) /\
      (re_search false year_pattern (strip_ext filename) = None -> y = None)) /\
  (exists t s e et,
      parse_show filename = Ok (mk_show t s e et) /\
      (re_search true show_pattern (strip_ext filename) = None ->
       s = None /\ e = None /\ et = None)).
Proof.
  split; [|split; [|split; [|split]]].
  - intros fuel H. apply sub_loop_fuel; simpl; lia.
  - intros fuel H. apply split_loop_fuel; simpl; lia.
  - intros dy ds.
    destruct (clean_parts_ok filename dy ds) as (y & info & _ & _ & Hc).
    rewrite Hc. now eexists _, _, _.
  - destruct (clean_parts_ok filename true false) as (y & info & Hy & _ & Hc).
    unfold parse_movie. rewrite Hc. simpl. eexists _, y.
    split; [reflexivity|]. intros Hn.
    pose proof (detect_year_of_spec (strip_ext filename)) as Hs.
    rewrite Hn in Hs. rewrite Hs in Hy. now injection Hy.
  - destruct (clean_parts_ok filename false true) as (y & info & _ & Hi & Hc).
    unfold parse_show. rewrite Hc. simpl bind.
    set (parts := clean_loop y (raw_parts (strip_ext filename)) []).
    destruct info as [[sn eps]|].
    + destruct (last_episode_token_ok eps parts
                  (seq (first_episode_token eps 0 parts (length parts))
                       (length parts
                        - first_episode_token eps 0 parts (length parts)))
                  (first_episode_token eps 0 parts (length parts)))
        as [n Hn].
      { intros i Hin. apply in_seq in Hin. lia. }
      rewrite Hn. simpl bind. eexists _, _, _, _.
      split; [reflexivity|]. intros Hnone.
      pose proof (detect_show_info_of_spec (strip_ext filename)) as Hs.
      rewrite Hnone in Hs. rewrite Hs in Hi. discriminate.
    + eexists _, _, _, _. split; [reflexivity|]. now repeat split.
Qed.

Lemma parsing_total_witness :
  exists t s e et,
    parse_show "no marker here.tar.gz" = Ok (mk_show t s e et) /\
    s = None /\ e = None /\ et = None.
Proof.
  destruct (parsing_total "no marker here.tar.gz")
    as (_ & _ & _ & _ & t & s & e & et & Hp & Hnone).
  exists t, s, e, et. split; [exact Hp|]. apply Hnone. reflexivity.
Defined.

(** C9.  When show info is detected and no token equals the decimal string
    of a detected episode number, [parse_show] takes every token, the marker
    token included, into the title, gives no episode title, and reports the
    season and the episodes of the match. *)
Theorem no_episode_token_title (filename : pystr) (parts : list pystr)
  (year : option Z) (sn : Z) (eps : list Z) :
  clean_parts filename false true = Ok (parts, year, Some (sn, eps)) ->
  (forall e part, In e eps -> In part parts -> part <> py_str e) ->
  first_episode_token eps 0 parts (length parts) = length parts /\
  parse_show filename
  = Ok (mk_show (smart_title (strip (join " " parts)))
                (Some sn) (Some eps) None).
Proof.
  intros Hc Hno.
  assert (Hfirst : first_episode_token eps 0 parts (length parts)
                   = length parts).
  { apply first_episode_token_none. intros part Hpart.
    apply any_episode_false. intros e He. now apply Hno. }
  split; [exact Hfirst|].
  unfold parse_show. rewrite Hc. simpl bind. rewrite Hfirst.
  rewrite Nat.sub_diag. simpl.
  replace (length parts + 1 <? length parts) with false
    by (symmetry; apply Nat.ltb_ge; lia).
  now rewrite firstn_all.
Qed.

Lemma no_episode_token_title_witness :
  first_episode_token [2%Z] 0
    ["show" : pystr; "name" : pystr; "s01e02" : pystr] 3 = 3 /\
  parse_show "Show Name S01E02"
  = Ok (mk_show (smart_title (strip (join " "
                   ["show" : pystr; "name" : pystr; "s01e02" : pystr])))
                (Some 1%Z) (Some [2%Z]) None).
Proof.
  apply (no_episode_token_title "Show Name S01E02"
           ["show" : pystr; "name" : pystr; "s01e02" : pystr] None 1%Z [2%Z]).
  - vm_compute. reflexivity.
  - intros e part [<-|[]] [<-|[<-|[<-|[]]]]; vm_compute; discriminate.
Defined.

(** C10.  The title of [parse_movie] and the title and episode title of
    [parse_show] have no two whitespace characters in a row (so no
    consecutive spaces) and no whitespace at either end, whatever empty
    tokens the tokenizer let through. *)
Theorem titles_tidy (filename : pystr) :
  (forall r, parse_movie filename = Ok r -> tidy (movie_title r)) /\
  (forall r, parse_show filename = Ok r ->
             tidy (title r) /\
             forall et, episode_title r = Some et -> tidy et).
Proof.
  split.
  - intros r. unfold parse_movie.
    destruct (clean_parts_ok filename true false) as (y & info & _ & _ & Hc).
    rewrite Hc. simpl. intros H. injection H as <-. simpl.
    apply smart_title_tidy.
  - intros r. unfold parse_show.
    destruct (clean_parts_ok filename false true) as (y & info & _ & _ & Hc).
    rewrite Hc. simpl bind.
    destruct info as [[sn eps]|].
    + destruct (last_episode_token _ _ _ _) as [n|]; simpl bind;
        [|discriminate].
      intros H. injection H as <-. simpl. split; [apply smart_title_tidy|].
      intros et.
      destruct (n + 1 <? _); [|discriminate].
      intros H. injection H as <-. apply smart_title_tidy.
    + intros H. injection H as <-. simpl. split; [apply smart_title_tidy|].
      discriminate.
Qed.

Lemma titles_tidy_witness :
  tidy ("A B" : pystr) /\ tidy ("Show Name 1x02" : pystr)
  /\ tidy ("Pilot" : pystr).
Proof.
  destruct (titles_tidy "a--b") as [Hm _].
  destruct (titles_tidy "Show--Name 1x02 2  --Pilot") as [_ Hs].
  split.
  - apply (Hm (mk_movie "A B" None)). vm_compute. reflexivity.
  - destruct (Hs (mk_show "Show Name 1x02" (Some 1%Z) (Some [2%Z])
                    (Some ("Pilot" : pystr)))) as [Ht Het].
    + vm_compute. reflexivity.
    + split; [exact Ht|]. apply Het. reflexivity.
Defined.

(** * Further properties of the code *)

(** ** clean_parts: the token loop *)

Lemma clean_loop_spec (year : option Z) : forall parts cleaned_parts,
  clean_loop year parts cleaned_parts
  = cleaned_parts
    ++ filter (kept year)
         (map (fun part => lower (strip_chars "()[]" part)) parts).
Proof.
  induction parts as [|part parts IH]; intros acc; cbn [clean_loop map filter].
  - now rewrite app_nil_r.
  - unfold kept at 1.
    destruct (year_truthy year
              && year_is year (lower (strip_chars "()[]" part)));
      cbn [negb andb].
    + apply IH.
    + destruct (mem (lower (strip_chars "()[]" part)) junk); cbn [negb].
      * apply IH.
      * rewrite IH, <- app_assoc. reflexivity.
Qed.

Lemma clean_parts_tokens filename dy ds parts year info :
  clean_parts filename dy ds = Ok (parts, year, info) ->
  parts = filter (kept year)
            (map (fun part => lower (strip_chars "()[]" part))
                 (raw_parts (strip_ext filename))).
Proof.
  intros H.
  destruct (clean_parts_ok filename dy ds) as (y & i & _ & _ & Hc).
  rewrite Hc in H. injection H as <- <- _.
  now rewrite clean_loop_spec.
Qed.

Lemma mem_false (x : pystr) (l : list pystr) : mem x l = false <-> ~ In x l.
Proof.
  unfold mem. split.
  - intros H Hin.
    assert (E : existsb (str_eqb x) l = true).
    { apply existsb_exists. exists x. split; [assumption|apply str_eqb_refl]. }
    rewrite E in H. discriminate.
  - intros H. destruct (existsb (str_eqb x) l) eqn:E; [|reflexivity].
    apply existsb_exists in E as (y & Hy & Heq).
    apply str_eqb_eq in Heq. subst y. contradiction.
Qed.

(** X1.  No token returned by [clean_parts] is one of the junk tags. *)
Theorem tokens_not_junk (filename : pystr) (dy ds : bool)
  (parts : list pystr) (year : option Z) (info : option (Z * list Z)) :
  clean_parts filename dy ds = Ok (parts, year, info) ->
  forall token, In token parts -> ~ In token junk.
Proof.
  intros H token Hin. apply clean_parts_tokens in H. subst parts.
  apply filter_In in Hin as [_ Hk]. unfold kept in Hk.
  apply andb_true_iff in Hk as [_ Hj]. apply negb_true_iff in Hj.
  now apply mem_false.
Qed.

Lemma tokens_not_junk_witness : ~ In ("matrix" : pystr) junk.
Proof.
  apply (tokens_not_junk "The Matrix 1999 [1080p] x264.mkv" true false
           ["the" : pystr; "matrix" : pystr] (Some 1999%Z) None).
  - vm_compute. reflexivity.
  - right. left. reflexivity.
Defined.

(** ** clean_parts: the year *)

Lemma digit_val_range (c : ascii) :
  is_digit c = true -> (0 <= digit_val c <= 9)%Z.
Proof.
  unfold is_digit, digit_val. intros H.
  apply andb_true_iff in H as [H1 H2].
  apply Nat.leb_le in H1, H2. lia.
Qed.

Lemma year_pattern_marker s c p s' c' :
  matches false year_pattern s c p s' c' -> year_marker p.
Proof.
  unfold year_pattern, Rep2, Dig. intros H. inv_matches;
    repeat match goal with
    | H : chr_match false _ _ = true |- _ => apply chr_match_exact in H; subst
    | H : cls_match _ false [CDigit] _ = true |- _ => rewrite digit_class in H
    end;
    eexists _, _;
    (split; [first [left; reflexivity | right; reflexivity]
            |split; assumption]).
Qed.

Lemma year_pattern_complete text post :
  year_marker text ->
  exists c', matches false year_pattern (text ++ post) [] text post c'.
Proof.
  intros (c & d & Ht & Hc & Hd). unfold year_pattern.
  assert (Hdd : forall g, matches false (Rep2 Dig) ([c; d] ++ post) g
                            [c; d] post g).
  { intros g. apply rep2_dig_intro; [|reflexivity].
    unfold all_digits. simpl. now rewrite Hc, Hd. }
  destruct Ht as [-> | ->]; eexists.
  - change ("1"%char :: "9"%char :: [c; d])
      with (["1"%char; "9"%char] ++ [c; d]).
    eapply M_cat_app; [|apply Hdd].
    apply M_group, M_alt_l.
    apply (M_cat false (Chr "1") (Chr "9") _ [] ["1"%char]
             ("9"%char :: [c; d] ++ post) [] ["9"%char] ([c; d] ++ post) []);
      apply M_chr; reflexivity.
  - change ("2"%char :: "0"%char :: [c; d])
      with (["2"%char; "0"%char] ++ [c; d]).
    eapply M_cat_app; [|apply Hdd].
    apply M_group, M_alt_r.
    apply (M_cat false (Chr "2") (Chr "0") _ [] ["2"%char]
             ("0"%char :: [c; d] ++ post) [] ["0"%char] ([c; d] ++ post) []);
      apply M_chr; reflexivity.
Qed.

Lemma year_marker_value (text : pystr) :
  year_marker text -> (1900 <= digits_value text <= 2099)%Z.
Proof.
  intros (c & d & Ht & Hc & Hd).
  apply digit_val_range in Hc, Hd.
  destruct Ht as [-> | ->]; unfold digits_value; cbn [fold_left].
  - change (digit_val "1") with 1%Z. change (digit_val "9") with 9%Z. lia.
  - change (digit_val "2") with 2%Z. change (digit_val "0") with 0%Z. lia.
Qed.

(** X2.  With [detect_year] on, a year is found exactly when the name left
    by the extension strip contains "19dd" or "20dd" (d a digit); the year
    is the value of the leftmost such substring, so it lies in 1900..2099. *)
Theorem year_recognition (filename : pystr) (ds : bool) :
  exists parts year info,
    clean_parts filename true ds = Ok (parts, year, info) /\
    match year with
    | Some y =>
        exists pre text post,
          strip_ext filename = pre ++ text ++ post /\
          year_marker text /\ y = digits_value text /\
          (1900 <= y <= 2099)%Z /\
          (forall pre' text' post',
              strip_ext filename = pre' ++ text' ++ post' ->
              year_marker text' -> length pre <= length pre')
    | None =>
        forall pre text post,
          strip_ext filename = pre ++ text ++ post -> ~ year_marker text
    end.
Proof.
  destruct (clean_parts_ok filename true ds) as (y & info & Hy & _ & Hc).
  exists (clean_loop y (raw_parts (strip_ext filename)) []), y, info.
  split; [exact Hc|].
  pose proof (detect_year_of_spec (strip_ext filename)) as Hs.
  destruct (re_search false year_pattern (strip_ext filename)) as [m|] eqn:Hr.
  - rewrite Hs in Hy. injection Hy as <-.
    apply search_from_some in Hr
      as (pre & suf & s' & Hname & _ & Hm & _ & Hleft).
    pose proof (matches_prefix _ _ _ _ _ _ _ Hm) as Hsuf.
    pose proof (year_pattern_marker _ _ _ _ _ Hm) as Hmark.
    exists pre, (m_text m), s'.
    split; [now rewrite Hname, Hsuf|].
    split; [assumption|]. split; [reflexivity|].
    split; [now apply year_marker_value|].
    intros pre' text' post' Hname' Hmark'.
    destruct (le_lt_dec (length pre) (length pre')) as [|Hlt]; [assumption|].
    exfalso.
    specialize (Hleft pre' (text' ++ post') Hname' Hlt).
    destruct (year_pattern_complete _ post' Hmark') as [c' Hc'].
    rewrite match_here_none in Hleft. exact (Hleft _ _ _ Hc').
  - rewrite Hs in Hy. injection Hy as <-.
    intros pre text post Hname Hmark.
    pose proof (search_from_none _ _ _ _ Hr pre (text ++ post) Hname) as Hn.
    destruct (year_pattern_complete _ post Hmark) as [c' Hc'].
    rewrite match_here_none in Hn. exact (Hn _ _ _ Hc').
Qed.

Lemma year_recognition_witness :
  exists pre text post,
    strip_ext "Blade Runner 2049 (2017).mkv" = pre ++ text ++ post /\
    year_marker text /\ 2049%Z = digits_value text.
Proof.
  destruct (year_recognition "Blade Runner 2049 (2017).mkv" false)
    as (parts & year & info & Hc & Hy).
  vm_compute in Hc. injection Hc as _ <- _.
  destruct Hy as (pre & text & post & H1 & H2 & H3 & _).
  now exists pre, text, post.
Defined.

(** X3.  When a year is detected, no returned token is the decimal string
    of that year. *)
Theorem tokens_not_year (filename : pystr) (dy ds : bool)
  (parts : list pystr) (y : Z) (info : option (Z * list Z)) :
  clean_parts filename dy ds = Ok (parts, Some y, info) ->
  ~ In (py_str y) parts.
Proof.
  intros H Hin.
  pose proof (clean_parts_tokens _ _ _ _ _ _ H) as Hp.
  destruct (clean_parts_ok filename dy ds) as (y' & i & Hy & _ & Hc).
  rewrite Hc in H. injection H as _ -> _.
  assert (Hnz : y <> 0%Z).
  { destruct dy; [|discriminate].
    pose proof (detect_year_of_spec (strip_ext filename)) as Hs.
    destruct (re_search false year_pattern (strip_ext filename)) as [m|] eqn:Hr;
      rewrite Hs in Hy; [|discriminate].
    injection Hy as <-.
    apply search_from_some in Hr as (pre & suf & s' & _ & _ & Hm & _).
    apply year_pattern_marker, year_marker_value in Hm. lia. }
  rewrite Hp in Hin. apply filter_In in Hin as [_ Hk].
  unfold kept, year_truthy, year_is in Hk.
  apply Z.eqb_neq in Hnz. rewrite Hnz, str_eqb_refl in Hk. discriminate.
Qed.

Lemma tokens_not_year_witness :
  ~ In (py_str 2049) ["blade" : pystr; "runner" : pystr; "2017" : pystr].
Proof.
  apply (tokens_not_year "Blade Runner 2049 (2017).mkv" true false
           ["blade" : pystr; "runner" : pystr; "2017" : pystr] 2049%Z None).
  vm_compute. reflexivity.
Defined.

(** ** clean_parts: the shape of a token *)

Lemma lstrip_suffix (p : ascii -> bool) (s : pystr) :
  exists d, s = d ++ lstrip p s.
Proof.
  induction s as [|x s [d IH]]; simpl.
  - now exists [].
  - destruct (p x).
    + exists (x :: d). simpl. now rewrite <- IH.
    + now exists [].
Qed.

Lemma lstrip_head (p : ascii -> bool) (s : pystr) c r :
  lstrip p s = c :: r -> p c = false.
Proof.
  induction s as [|x s IH]; simpl; [discriminate|].
  destruct (p x) eqn:Hx; [exact IH|].
  intros H. injection H as <- _. exact Hx.
Qed.

Lemma rstrip_prefix (p : ascii -> bool) (s : pystr) :
  exists d, s = rstrip p s ++ d.
Proof.
  unfold rstrip. destruct (lstrip_suffix p (rev s)) as [d Hd].
  exists (rev d). rewrite <- rev_app_distr, <- Hd. now rewrite rev_involutive.
Qed.

Lemma rstrip_last (p : ascii -> bool) (s : pystr) q c :
  rstrip p s = q ++ [c] -> p c = false.
Proof.
  unfold rstrip. intros H. apply (f_equal (@rev ascii)) in H.
  rewrite rev_involutive, rev_app_distr in H. simpl in H.
  now apply lstrip_head in H.
Qed.

Lemma strip_by_head (p : ascii -> bool) (s : pystr) c r :
  strip_by p s = c :: r -> p c = false.
Proof.
  unfold strip_by. intros H.
  destruct (rstrip_prefix p (lstrip p s)) as [d Hd].
  rewrite H in Hd. simpl in Hd. now apply lstrip_head in Hd.
Qed.

Lemma strip_by_last (p : ascii -> bool) (s : pystr) q c :
  strip_by p s = q ++ [c] -> p c = false.
Proof. unfold strip_by. apply rstrip_last. Qed.

Lemma strip_by_keeps (p q : ascii -> bool) (s : pystr) :
  forallb q s = true -> forallb q (strip_by p s) = true.
Proof.
  unfold strip_by. intros H.
  destruct (lstrip_suffix p s) as [d1 H1].
  destruct (rstrip_prefix p (lstrip p s)) as [d2 H2].
  rewrite H1, forallb_app in H. apply andb_true_iff in H as [_ H].
  rewrite H2, forallb_app in H. now apply andb_true_iff in H as [H _].
Qed.

Lemma is_delim_lower_char (c : ascii) : is_delim (lower_char c) = is_delim c.
Proof. all_chars c; reflexivity. Qed.

Lemma is_bracket_lower_char (c : ascii) :
  is_bracket (lower_char c) = is_bracket c.
Proof. all_chars c; reflexivity. Qed.

Lemma nodelim_lower (s : pystr) :
  forallb (fun c => negb (is_delim c)) (lower s)
  = forallb (fun c => negb (is_delim c)) s.
Proof.
  induction s as [|x s IH]; simpl; [reflexivity|].
  now rewrite is_delim_lower_char, IH.
Qed.

Lemma token_shape (filename : pystr) (dy ds : bool)
  (parts : list pystr) (year : option Z) (info : option (Z * list Z)) :
  clean_parts filename dy ds = Ok (parts, year, info) ->
  forall token, In token parts ->
    lower token = token /\
    forallb (fun c => negb (is_delim c)) token = true /\
    (forall c r, token = c :: r -> is_bracket c = false) /\
    (forall q c, token = q ++ [c] -> is_bracket c = false).
Proof.
  intros H token Hin. apply clean_parts_tokens in H. subst parts.
  apply filter_In in Hin as [Hin _].
  apply in_map_iff in Hin as (part & <- & Hpart).
  rewrite raw_parts_eq in Hpart.
  pose proof (split_on_free is_delim (strip_ext filename) [] eq_refl) as Hfree.
  rewrite Forall_forall in Hfree. specialize (Hfree part Hpart).
  split; [apply lower_idem|].
  split; [rewrite nodelim_lower; now apply strip_by_keeps|].
  unfold strip_chars.
  split.
  - intros c r E.
    destruct (strip_by _ part) as [|c0 r0] eqn:Es; [discriminate|].
    simpl in E. injection E as <- _.
    apply strip_by_head in Es. rewrite is_bracket_lower_char. exact Es.
  - intros q c E.
    destruct (strip_by _ part) as [|c0 r0] eqn:Es using rev_ind;
      [destruct q; discriminate|].
    unfold lower in E. rewrite map_app in E. simpl in E.
    apply app_inj_tail in E as [_ <-].
    apply strip_by_last in Es. rewrite is_bracket_lower_char. exact Es.
Qed.

(** X4.  Every token is in lowercase, contains none of the delimiters
    ('.', '-', '_', whitespace), and neither begins nor ends with one of the
    brackets "()[]". *)
Theorem tokens_normalized (filename : pystr) (dy ds : bool)
  (parts : list pystr) (year : option Z) (info : option (Z * list Z)) :
  clean_parts filename dy ds = Ok (parts, year, info) ->
  forall token, In token parts ->
    lower token = token /\
    forallb (fun c => negb (is_delim c)) token = true /\
    (forall c r, token = c :: r -> is_bracket c = false) /\
    (forall q c, token = q ++ [c] -> is_bracket c = false).
Proof. apply token_shape. Qed.

Lemma tokens_normalized_witness :
  lower "remux" = "remux" /\
  forallb (fun c => negb (is_delim c)) "remux" = true /\
  (forall c r, ("remux" : pystr) = c :: r -> is_bracket c = false) /\
  (forall q c, ("remux" : pystr) = q ++ [c] -> is_bracket c = false).
Proof.
  apply (tokens_normalized "The_MATRIX (1999) [[1080p]]--((REMUX)).mkv"
           true false
           ["the" : pystr; "matrix" : pystr; "" : pystr; "remux" : pystr]
           (Some 1999%Z) None).
  - vm_compute. reflexivity.
  - right. right. right. left. reflexivity.
Defined.

(** ** clean_parts: the two flags *)

Lemma filter_filter {A : Type} (f g : A -> bool) (l : list A) :
  filter f (filter g l) = filter (fun x => f x && g x) l.
Proof.
  induction l as [|x l IH]; simpl; [reflexivity|].
  destruct (g x); simpl.
  - rewrite andb_true_r. destruct (f x); now rewrite IH.
  - rewrite andb_false_r. exact IH.
Qed.

(** X5.  The two flags act apart: the show info does not depend on
    [detect_year], and the tokens with [detect_year] on are the tokens with
    it off, in the same order, without those equal to the decimal string of
    the detected year (all of them when no year is detected). *)
Theorem tokens_with_year (filename : pystr) (ds : bool) :
  exists parts0 parts1 year info,
    clean_parts filename false ds = Ok (parts0, None, info) /\
    clean_parts filename true ds = Ok (parts1, year, info) /\
    parts1 = match year with
             | Some y => filter (fun t => negb (str_eqb t (py_str y))) parts0
             | None => parts0
             end.
Proof.
  destruct (clean_parts_ok filename false ds) as (y0 & i0 & Hy0 & Hi0 & Hc0).
  destruct (clean_parts_ok filename true ds) as (y1 & i1 & Hy1 & Hi1 & Hc1).
  injection Hy0 as <-. rewrite Hi0 in Hi1. injection Hi1 as <-.
  eexists _, _, y1, i0. split; [exact Hc0|]. split; [exact Hc1|].
  rewrite !clean_loop_spec. simpl app.
  destruct y1 as [y|]; [|reflexivity].
  assert (Hnz : y <> 0%Z).
  { pose proof (detect_year_of_spec (strip_ext filename)) as Hs.
    destruct (re_search false year_pattern (strip_ext filename)) as [m|] eqn:Hr;
      rewrite Hs in Hy1; [|discriminate].
    injection Hy1 as <-.
    apply search_from_some in Hr as (pre & suf & s' & _ & _ & Hm & _).
    apply year_pattern_marker, year_marker_value in Hm. lia. }
  rewrite filter_filter. apply filter_ext. intros t.
  unfold kept, year_truthy, year_is.
  apply Z.eqb_neq in Hnz. rewrite Hnz. reflexivity.
Qed.

(** ** clean_parts: the numbers of a marker *)

Lemma digits_value_two (s : pystr) :
  all_digits s -> length s = 1 \/ length s = 2 ->
  (0 <= digits_value s <= 99)%Z.
Proof.
  unfold all_digits. intros Hd [Hl|Hl].
  - destruct s as [|a [|]]; try discriminate. simpl in Hd.
    rewrite andb_true_r in Hd. apply digit_val_range in Hd.
    unfold digits_value. cbn [fold_left]. lia.
  - destruct s as [|a [|b [|]]]; try discriminate. simpl in Hd.
    apply andb_true_iff in Hd as [Ha Hb]. rewrite andb_true_r in Hb.
    apply digit_val_range in Ha, Hb.
    unfold digits_value. cbn [fold_left]. lia.
Qed.

(** X6.  A detected season lies in 0..99, and so does every detected
    episode number. *)
Theorem show_info_bounds (filename : pystr) (dy : bool)
  (parts : list pystr) (year : option Z) (sn : Z) (eps : list Z) :
  clean_parts filename dy true = Ok (parts, year, Some (sn, eps)) ->
  (0 <= sn <= 99)%Z /\ Forall (fun e => (0 <= e <= 99)%Z) eps.
Proof.
  intros H.
  destruct (clean_parts_ok filename dy true) as (y & info & _ & Hi & Hc).
  rewrite Hc in H. injection H as _ _ ->.
  pose proof (detect_show_info_of_spec (strip_ext filename)) as Hs.
  destruct (re_search true show_pattern (strip_ext filename)) as [m|];
    [|rewrite Hs in Hi; discriminate].
  destruct Hs as (season & episode & last & Hmark & _ & _ & _ & Hd).
  rewrite Hd in Hi. injection Hi as <- <-.
  destruct Hmark
    as (s_opt & sep & tail & _ & _ & Hd1 & Hl1 & _ & Hd2 & Hl2 & Hlast).
  pose proof (digits_value_two season Hd1 Hl1) as Hsn.
  pose proof (digits_value_two episode Hd2 (or_intror Hl2)) as Hep.
  split; [exact Hsn|].
  destruct last as [l|]; simpl.
  - destruct Hlast as (dash & e & _ & _ & _ & Hd3 & Hl3).
    pose proof (digits_value_two l Hd3 (or_intror Hl3)) as Hl.
    unfold py_range. apply Forall_map, Forall_forall.
    intros i Hin. apply in_seq in Hin. lia.
  - now constructor.
Qed.

Lemma show_info_bounds_witness :
  (0 <= 12 <= 99)%Z /\ Forall (fun e => (0 <= e <= 99)%Z) [98%Z; 99%Z].
Proof.
  apply (show_info_bounds "Show 12x98-99" false
           ["show" : pystr; "12x98" : pystr; "99" : pystr] None 12%Z
           [98%Z; 99%Z]).
  vm_compute. reflexivity.
Defined.

(** ** clean_parts: the extension strip *)

Lemma nondot_class x :
  cls_match false true [CChar "."] x = negb (Ascii.eqb x ".").
Proof. unfold cls_match. simpl. now rewrite orb_false_r. Qed.

Lemma star_nondot_sound s c p s' c' :
  matches false (Star (Cls true [CChar "."])) s c p s' c' ->
  c' = c /\ dot_free p.
Proof.
  intros H. remember (Star (Cls true [CChar "."])) as r eqn:Er.
  induction H; try discriminate.
  - now split.
  - injection Er as ->.
    destruct (IHmatches2 eq_refl) as [-> Hp].
    inv_match H. split; [reflexivity|].
    unfold dot_free in *. simpl.
    match goal with
    | H : cls_match _ _ _ _ = true |- _ => rewrite nondot_class in H; rewrite H
    end.
    exact Hp.
Qed.

Lemma star_nondot_complete : forall p s c,
  dot_free p -> matches false (Star (Cls true [CChar "."])) (p ++ s) c p s c.
Proof.
  unfold dot_free. induction p as [|x p IH]; intros s c Hp; simpl in *.
  - apply M_star_stop.
  - apply andb_true_iff in Hp as [Hx Hp].
    apply (M_star_more false _ _ c [x] (p ++ s) c p s c).
    + apply M_cls. now rewrite nondot_class.
    + discriminate.
    + now apply IH.
Qed.

Lemma ext_group_sound s c p s' c' :
  matches false ext_group s c p s' c' ->
  exists part, p = "."%char :: part /\ part <> [] /\ dot_free part.
Proof.
  unfold ext_group, Plus. intros H. inv_matches.
  match goal with
  | H : matches _ (Star _) _ _ _ _ _ |- _ =>
      apply star_nondot_sound in H as [_ Hp]
  end.
  match goal with
  | H : chr_match false _ _ = true |- _ => apply chr_match_exact in H; subst
  end.
  match goal with
  | H : cls_match _ _ _ _ = true |- _ => rewrite nondot_class in H
  end.
  eexists. split; [reflexivity|]. split; [discriminate|].
  unfold dot_free in *. simpl.
  match goal with
  | H : negb _ = true |- _ => rewrite H
  end.
  exact Hp.
Qed.

Lemma ext_group_complete part s c :
  part <> [] -> dot_free part ->
  matches false ext_group (("."%char :: part) ++ s) c ("."%char :: part) s
    ((1, "."%char :: part) :: c).
Proof.
  intros Hne Hp. destruct part as [|x part]; [contradiction|].
  unfold dot_free in Hp. simpl in Hp.
  apply andb_true_iff in Hp as [Hx Hp].
  unfold ext_group, Plus. apply M_group.
  apply (M_cat false _ _ _ c ["."%char] ((x :: part) ++ s) c (x :: part) s c).
  - apply M_chr. reflexivity.
  - apply (M_cat false _ _ _ c [x] (part ++ s) c part s c).
    + apply M_cls. now rewrite nondot_class.
    + now apply star_nondot_complete.
Qed.

Lemma star_ext_group_sound s c p s' c' :
  matches false (Star ext_group) s c p s' c' ->
  exists parts, Forall (fun q => q <> [] /\ dot_free q) parts /\
                p = dotted parts.
Proof.
  intros H. remember (Star ext_group) as r eqn:Er.
  induction H; try discriminate.
  - now exists [].
  - injection Er as ->.
    destruct (IHmatches2 eq_refl) as (parts & Hparts & ->).
    apply ext_group_sound in H as (part & -> & Hne & Hp).
    exists (part :: parts). split; [now constructor|reflexivity].
Qed.

Lemma star_ext_group_complete : forall parts s c,
  Forall (fun q => q <> [] /\ dot_free q) parts ->
  exists c', matches false (Star ext_group) (dotted parts ++ s) c
               (dotted parts) s c'.
Proof.
  induction parts as [|part parts IH]; intros s c H.
  - exists c. apply M_star_stop.
  - inversion H as [|? ? [Hne Hp] Hparts]; subst.
    destruct (IH s ((1, "."%char :: part) :: c) Hparts) as [c' Hc'].
    exists c'.
    change (dotted (part :: parts))
      with (("."%char :: part) ++ dotted parts).
    rewrite <- app_assoc.
    eapply M_star_more; [|discriminate|exact Hc'].
    now apply ext_group_complete.
Qed.

Lemma ext_pattern_split : ext_pattern = ext_group +++ Star ext_group +++ Eos.
Proof. reflexivity. Qed.

Lemma ext_pattern_sound s c p s' c' :
  matches false ext_pattern s c p s' c' ->
  ext_form p /\ (s' = [] \/ s' = ["010"%char]).
Proof.
  rewrite ext_pattern_split. intros H. inv_match H.
  match goal with
  | H : matches _ Eos _ _ _ _ _ |- _ => inv_match H
  end;
    (match goal with
     | H : matches _ (Cat _ _) _ _ _ _ _ |- _ => inv_match H
     end;
     match goal with
     | H : matches _ ext_group _ _ _ _ _ |- _ =>
         apply ext_group_sound in H as (part & -> & Hne & Hp)
     end;
     match goal with
     | H : matches _ (Star _) _ _ _ _ _ |- _ =>
         apply star_ext_group_sound in H as (parts & Hparts & ->)
     end;
     split; [|auto];
     exists (part :: parts); rewrite app_nil_r;
     split; [discriminate|]; split; [now constructor|reflexivity]).
Qed.

Lemma ext_pattern_complete ext :
  ext_form ext -> exists c', matches false ext_pattern ext [] ext [] c'.
Proof.
  intros (parts & Hne & Hparts & ->).
  destruct parts as [|part parts]; [contradiction|].
  inversion Hparts as [|? ? [Hn Hp] Hrest]; subst.
  destruct (star_ext_group_complete parts [] [(1, "."%char :: part)] Hrest)
    as [c' Hc'].
  exists c'. rewrite ext_pattern_split.
  change (dotted (part :: parts)) with (("."%char :: part) ++ dotted parts).
  rewrite app_nil_r in Hc'.
  assert (H1 : matches false (ext_group +++ Star ext_group)
                 (("."%char :: part) ++ dotted parts) []
                 (("."%char :: part) ++ dotted parts) [] c').
  { apply (M_cat false ext_group (Star ext_group) _ [] ("."%char :: part)
             (dotted parts) [(1, "."%char :: part)] (dotted parts) [] c');
      [|exact Hc'].
    now apply ext_group_complete. }
  pose proof (M_cat false _ Eos _ [] _ [] c' [] [] c' H1 (M_eos_end false c'))
    as H2.
  now rewrite app_nil_r in H2.
Qed.

Lemma ext_form_head ext : ext_form ext -> exists r, ext = "."%char :: r.
Proof.
  intros (parts & Hne & _ & ->).
  destruct parts as [|part parts]; [contradiction|]. now eexists.
Qed.

Lemma ext_form_app a b : ext_form a -> ext_form b -> ext_form (a ++ b).
Proof.
  intros (pa & Hna & Hpa & ->) (pb & Hnb & Hpb & ->).
  exists (pa ++ pb). split; [|split].
  - destruct pa; [contradiction|discriminate].
  - apply Forall_app. now split.
  - unfold dotted. now rewrite flat_map_app.
Qed.

Lemma no_newline_app a b : no_newline (a ++ b) <-> no_newline a /\ no_newline b.
Proof. unfold no_newline. rewrite forallb_app. apply andb_true_iff. Qed.

Lemma dot_free_app a b : dot_free (a ++ b) <-> dot_free a /\ dot_free b.
Proof. unfold dot_free. rewrite forallb_app. apply andb_true_iff. Qed.

Lemma match_here_in ic r s o :
  match_here ic r s = Some o -> In o (run ic r s []).
Proof.
  unfold match_here. destruct (run ic r s []); [discriminate|].
  intros H. injection H as ->. now left.
Qed.

Lemma sub_loop_nil ic r repl fuel : sub_loop ic r repl fuel [] = [].
Proof.
  destruct fuel as [|fuel]; [reflexivity|]. cbn [sub_loop].
  destruct (match_here ic r []) as [o|] eqn:Ho; [|reflexivity].
  destruct (matched o) as [|x p] eqn:Hm; [reflexivity|].
  pose proof (match_here_shorter ic r [] o x p Ho Hm) as H. simpl in H. lia.
Qed.

Lemma sub_loop_ext : forall fuel s,
  length s < fuel -> no_newline s ->
  exists ext,
    s = sub_loop false ext_pattern [] fuel s ++ ext /\
    (ext = [] \/ ext_form ext) /\
    (forall pre' ext', s = pre' ++ ext' -> ext_form ext' ->
                       length (sub_loop false ext_pattern [] fuel s)
                       <= length pre').
Proof.
  induction fuel as [|fuel IH]; intros s Hlen Hnl; [lia|].
  cbn [sub_loop].
  destruct (match_here false ext_pattern s) as [o|] eqn:Ho.
  - pose proof (ext_pattern_consumes _ _ _ (match_here_in _ _ _ _ Ho)) as Hne.
    destruct (matched o) as [|x p] eqn:Hm; [contradiction|].
    pose proof (match_here_sound _ _ _ _ Ho) as Hmt.
    pose proof (matches_prefix _ _ _ _ _ _ _ Hmt) as Hs.
    apply ext_pattern_sound in Hmt as [Hform Hrest].
    assert (Hr : rest o = []).
    { destruct Hrest as [E|E]; [exact E|].
      rewrite Hs, E in Hnl. apply no_newline_app in Hnl as [_ Hnl].
      discriminate. }
    rewrite Hr, sub_loop_nil. simpl. exists s.
    split; [reflexivity|]. split.
    + right. rewrite Hs, Hr, app_nil_r. exact Hform.
    + intros. lia.
  - destruct s as [|x s].
    + exists []. split; [reflexivity|]. split; [now left|]. intros. simpl. lia.
    + assert (Hnl' : no_newline s).
      { change (x :: s) with ([x] ++ s) in Hnl.
        now apply no_newline_app in Hnl. }
      simpl in Hlen.
      destruct (IH s ltac:(lia) Hnl') as (ext & Hs & Hext & Hleft).
      exists ext. split; [simpl; now rewrite <- Hs|]. split; [exact Hext|].
      intros [|y pre'] ext' Heq Hform; simpl in *.
      * exfalso. subst ext'.
        destruct (ext_pattern_complete _ Hform) as [c' Hc'].
        rewrite match_here_none in Ho. exact (Ho _ _ _ Hc').
      * injection Heq as -> Heq. specialize (Hleft pre' ext' Heq Hform). lia.
Qed.

Lemma strip_ext_spec (filename : pystr) :
  no_newline filename ->
  exists ext,
    filename = strip_ext filename ++ ext /\
    (ext = [] \/ ext_form ext) /\
    (forall pre' ext', filename = pre' ++ ext' -> ext_form ext' ->
                       length (strip_ext filename) <= length pre').
Proof. intros H. apply sub_loop_ext; [simpl; lia|exact H]. Qed.

(** X7.  On a filename without a newline, the extension strip returns the
    filename cut at the leftmost position from which the rest is a run of
    groups "dot, then one or more characters that are not dots"; without
    such a position the filename is returned whole. *)
Theorem strip_ext_cut (filename : pystr) :
  no_newline filename ->
  exists ext,
    filename = strip_ext filename ++ ext /\
    (ext = [] \/ ext_form ext) /\
    (forall pre' ext', filename = pre' ++ ext' -> ext_form ext' ->
                       length (strip_ext filename) <= length pre').
Proof. apply strip_ext_spec. Qed.

Lemma strip_ext_cut_witness :
  exists ext,
    ("archive.tar.gz" : pystr) = strip_ext "archive.tar.gz" ++ ext /\
    (ext = [] \/ ext_form ext) /\
    (forall pre' ext', ("archive.tar.gz" : pystr) = pre' ++ ext' ->
                       ext_form ext' ->
                       length (strip_ext "archive.tar.gz") <= length pre').
Proof. apply (strip_ext_cut "archive.tar.gz"). reflexivity. Defined.

Lemma strip_ext_no_dot (s : pystr) :
  dot_free s -> no_newline s -> strip_ext s = s.
Proof.
  intros Hd Hn. destruct (strip_ext_spec s Hn) as (ext & Hs & [->|Hf] & _).
  - now rewrite app_nil_r in Hs.
  - exfalso. apply ext_form_head in Hf as [r ->].
    rewrite Hs in Hd. apply dot_free_app in Hd as [_ Hd]. discriminate.
Qed.

Lemma strip_ext_dotted (stem : pystr) (parts : list pystr) :
  dot_free stem -> parts <> [] ->
  Forall (fun p => p <> [] /\ dot_free p) parts ->
  no_newline (stem ++ dotted parts) ->
  strip_ext (stem ++ dotted parts) = stem.
Proof.
  intros Hd Hne Hparts Hn.
  assert (Hform : ext_form (dotted parts)) by (now exists parts).
  destruct (strip_ext_spec _ Hn) as (ext & Hs & Hext & Hleft).
  specialize (Hleft stem (dotted parts) eq_refl Hform).
  set (r := strip_ext (stem ++ dotted parts)) in *.
  assert (Hpre : exists t, stem = r ++ t /\ ext = t ++ dotted parts).
  { clearbody r. clear Hext Hn Hd. revert stem Hs Hleft.
    induction r as [|x r IH]; intros stem Hs Hleft.
    - exists stem. now split.
    - destruct stem as [|y stem]; [simpl in Hleft; lia|].
      simpl in Hs. injection Hs as -> Hs. simpl in Hleft.
      destruct (IH stem Hs ltac:(lia)) as (t & -> & ->).
      exists t. now split. }
  destruct Hpre as (t & Hst & Het).
  destruct t as [|c t]; [now rewrite app_nil_r in Hst|].
  exfalso. destruct Hext as [E|Hf].
  - rewrite E in Het. discriminate.
  - apply ext_form_head in Hf as [r' E]. rewrite Het in E.
    injection E as -> _.
    rewrite Hst in Hd. apply dot_free_app in Hd as [_ Hd]. discriminate.
Qed.

(** X8.  A filename (without a newline) that is a dot-free stem followed by
    one or more non-empty dot-separated parts is cut down to the stem, so
    [clean_parts], [parse_movie] and [parse_show] return what they return
    on the stem alone: nothing after the first dot is parsed. *)
Theorem dotted_name_cut (stem : pystr) (parts : list pystr) (dy ds : bool) :
  dot_free stem -> parts <> [] ->
  Forall (fun p => p <> [] /\ dot_free p) parts ->
  no_newline (stem ++ dotted parts) ->
  strip_ext (stem ++ dotted parts) = stem /\
  clean_parts (stem ++ dotted parts) dy ds = clean_parts stem dy ds /\
  parse_movie (stem ++ dotted parts) = parse_movie stem /\
  parse_show (stem ++ dotted parts) = parse_show stem.
Proof.
  intros Hd Hne Hparts Hn.
  pose proof (strip_ext_dotted stem parts Hd Hne Hparts Hn) as H1.
  assert (H2 : strip_ext stem = stem).
  { apply strip_ext_no_dot; [exact Hd|]. now apply no_newline_app in Hn. }
  assert (Hc : forall a b, clean_parts (stem ++ dotted parts) a b
                           = clean_parts stem a b).
  { intros a b. unfold clean_parts. now rewrite H1, H2. }
  split; [exact H1|]. split; [apply Hc|].
  unfold parse_movie, parse_show. now rewrite !Hc.
Qed.

Lemma dotted_name_cut_witness :
  strip_ext "The.Matrix.1999.1080p.mkv" = "The" /\
  clean_parts "The.Matrix.1999.1080p.mkv" true false
  = clean_parts "The" true false /\
  parse_movie "The.Matrix.1999.1080p.mkv" = parse_movie "The" /\
  parse_show "The.Matrix.1999.1080p.mkv" = parse_show "The".
Proof.
  apply (dotted_name_cut "The"
           ["Matrix" : pystr; "1999" : pystr; "1080p" : pystr; "mkv" : pystr]
           true false).
  - reflexivity.
  - discriminate.
  - repeat constructor; discriminate.
  - reflexivity.
Defined.

(** X9.  On a filename without a newline the extension strip is idempotent:
    stripping the stripped name changes nothing. *)
Theorem strip_ext_idempotent (filename : pystr) :
  no_newline filename ->
  strip_ext (strip_ext filename) = strip_ext filename.
Proof.
  intros Hn.
  destruct (strip_ext_spec filename Hn) as (ext & Hs & Hext & Hleft).
  destruct Hext as [->|Hf].
  - rewrite app_nil_r in Hs. now rewrite <- Hs.
  - assert (Hn' : no_newline (strip_ext filename)).
    { rewrite Hs in Hn. now apply no_newline_app in Hn. }
    destruct (strip_ext_spec _ Hn') as (ext2 & Hs2 & [->|Hf2] & _).
    + now rewrite app_nil_r in Hs2.
    + exfalso.
      specialize (Hleft (strip_ext (strip_ext filename)) (ext2 ++ ext)).
      rewrite app_assoc, <- Hs2 in Hleft.
      specialize (Hleft Hs (ext_form_app _ _ Hf2 Hf)).
      apply ext_form_head in Hf2 as [r E].
      rewrite Hs2, E, length_app in Hleft at 1. simpl in Hleft. lia.
Qed.

Lemma strip_ext_idempotent_witness :
  strip_ext (strip_ext "a..b.c") = strip_ext "a..b.c".
Proof. apply (strip_ext_idempotent "a..b.c"). reflexivity. Defined.

(** ** parse_show: where the title ends and the episode title begins *)

Lemma first_episode_token_at (eps : list Z) : forall pre i t tl d,
  Forall (fun p => any_episode eps p = false) pre ->
  any_episode eps t = true ->
  first_episode_token eps i (pre ++ t :: tl) d = i + length pre.
Proof.
  induction pre as [|p pre IH]; intros i t tl d Hpre Ht; simpl.
  - rewrite Ht. lia.
  - inversion Hpre as [|? ? Hp Hpre']; subst. rewrite Hp.
    rewrite IH by assumption. lia.
Qed.

Lemma nth_error_middle {A : Type} (pre mid : list A) (x : A) (tl : list A) :
  nth_error (pre ++ mid ++ x :: tl) (length pre + length mid) = Some x.
Proof.
  rewrite nth_error_app2 by lia.
  replace (length pre + length mid - length pre) with (length mid) by lia.
  rewrite nth_error_app2 by lia. now rewrite Nat.sub_diag.
Qed.

Lemma last_episode_token_run (eps : list Z) (pre post : list pystr) :
  (forall t post', post = t :: post' -> any_episode eps t = false) ->
  forall run2 run1 last0,
    Forall (fun p => any_episode eps p = true) run2 ->
    last_episode_token eps (pre ++ run1 ++ run2 ++ post)
      (seq (length pre + length run1) (length run2 + length post)) last0
    = Ok (match run2 with
          | [] => last0
          | _ => length pre + length run1 + length run2 - 1
          end).
Proof.
  intros Hpost. induction run2 as [|t r IH]; intros run1 last0 Hrun.
  - simpl app. simpl length. simpl plus.
    destruct post as [|t post']; [reflexivity|].
    cbn [length seq last_episode_token]. unfold index.
    rewrite nth_error_middle. simpl bind.
    now rewrite (Hpost t post' eq_refl).
  - inversion Hrun as [|? ? Ht Hr]; subst.
    cbn [length plus seq last_episode_token]. unfold index.
    change ((t :: r) ++ post) with (t :: r ++ post).
    rewrite nth_error_middle. simpl bind. rewrite Ht.
    specialize (IH (run1 ++ [t]) (length pre + length run1) Hr).
    rewrite <- !app_assoc in IH. simpl app in IH.
    rewrite length_app in IH. simpl length in IH.
    replace (length pre + (length run1 + 1))
      with (S (length pre + length run1)) in IH by lia.
    rewrite IH. f_equal. destruct r; simpl; lia.
Qed.

(** X10.  When the tokens are [pre ++ run ++ post], where no token of [pre]
    is the decimal string of a detected episode, every token of the
    non-empty [run] is one, and [post] is empty or begins with a token that
    is not one, then the title is built from [pre] and the episode title
    from [post]: [None] when [post] is empty, and otherwise the title-cased
    [post] even if an episode number occurs again later in it. *)
Theorem episode_boundary (filename : pystr) (pre run post : list pystr)
  (year : option Z) (sn : Z) (eps : list Z) :
  clean_parts filename false true
  = Ok (pre ++ run ++ post, year, Some (sn, eps)) ->
  Forall (fun t => any_episode eps t = false) pre ->
  run <> [] ->
  Forall (fun t => any_episode eps t = true) run ->
  (forall t post', post = t :: post' -> any_episode eps t = false) ->
  parse_show filename
  = Ok (mk_show (smart_title (strip (join " " pre))) (Some sn) (Some eps)
          (match post with
           | [] => None
           | _ => Some (smart_title (strip (join " " post)))
           end)).
Proof.
  intros Hc Hpre Hne Hrun Hpost.
  unfold parse_show. rewrite Hc. simpl bind.
  destruct run as [|t r]; [contradiction|].
  inversion Hrun as [|? ? Ht Hr]; subst.
  change ((t :: r) ++ post) with (t :: r ++ post).
  rewrite (first_episode_token_at eps pre 0 t (r ++ post)) by assumption.
  simpl plus.
  replace (length (pre ++ t :: r ++ post) - length pre)
    with (length (t :: r) + length post)
    by (rewrite !length_app; simpl; rewrite length_app; lia).
  pose proof (last_episode_token_run eps pre post Hpost (t :: r) []
                (length pre) Hrun) as Hl.
  simpl app in Hl. simpl (length []) in Hl. rewrite Nat.add_0_r in Hl.
  remember (length pre + length (t :: r) - 1) as last eqn:El.
  rewrite Hl. simpl bind.
  replace (last + 1) with (length (pre ++ t :: r))
    by (subst last; rewrite length_app; simpl; lia).
  rewrite firstn_app, firstn_all, Nat.sub_diag. simpl firstn.
  rewrite app_nil_r.
  change (pre ++ t :: r ++ post) with (pre ++ (t :: r) ++ post).
  rewrite (app_assoc pre (t :: r) post).
  rewrite skipn_app, skipn_all, Nat.sub_diag. simpl skipn.
  simpl app at 2.
  destruct post as [|p post'].
  - replace (length (pre ++ t :: r) <? length ((pre ++ t :: r) ++ []))
      with false; [reflexivity|].
    symmetry. apply Nat.ltb_ge. rewrite app_nil_r. lia.
  - replace (length (pre ++ t :: r)
             <? length ((pre ++ t :: r) ++ p :: post')) with true;
      [reflexivity|].
    symmetry. apply Nat.ltb_lt. rewrite (length_app (pre ++ t :: r)).
    simpl. lia.
Qed.

Lemma episode_boundary_witness :
  parse_show "Show Name 1x02 2 The 2 Towers.mkv"
  = Ok (mk_show
          (smart_title (strip (join " "
             ["show" : pystr; "name" : pystr; "1x02" : pystr])))
          (Some 1%Z) (Some [2%Z])
          (Some (smart_title (strip (join " "
             ["the" : pystr; "2" : pystr; "towers" : pystr]))))).
Proof.
  apply (episode_boundary "Show Name 1x02 2 The 2 Towers.mkv"
           ["show" : pystr; "name" : pystr; "1x02" : pystr]
           ["2" : pystr]
           ["the" : pystr; "2" : pystr; "towers" : pystr]
           None 1%Z [2%Z]).
  - vm_compute. reflexivity.
  - repeat constructor.
  - discriminate.
  - repeat constructor.
  - intros t post' E. injection E as <- _. reflexivity.
Defined.

(** ** smart_title: what it changes and what it keeps *)

Lemma lower_app (a b : pystr) : lower (a ++ b) = lower a ++ lower b.
Proof. apply map_app. Qed.

Lemma lower_join (ws : list pystr) :
  lower (join " " ws) = join " " (map lower ws).
Proof.
  induction ws as [|w ws IH]; [reflexivity|].
  destruct ws as [|w2 ws]; [reflexivity|].
  change (join " " (w :: w2 :: ws))
    with (w ++ " "%char :: join " " (w2 :: ws)).
  rewrite lower_app.
  change (lower (" "%char :: join " " (w2 :: ws)))
    with (" "%char :: lower (join " " (w2 :: ws))).
  now rewrite IH.
Qed.

Lemma lower_render_word (w : pystr) : lower (render_word w) = lower w.
Proof.
  unfold render_word. destruct (mem (lower w) SMALL_WORDS).
  - apply lower_idem.
  - apply lower_capitalize.
Qed.

Lemma lower_smart_title (text : pystr) :
  lower (smart_title text) = join " " (map lower (split text)).
Proof.
  rewrite smart_title_eq, lower_join. f_equal.
  destruct (split text) as [|w ws]; [reflexivity|]. simpl.
  rewrite lower_capitalize, map_map. f_equal.
  apply map_ext. apply lower_render_word.
Qed.

(** X11.  On an ASCII text [smart_title] changes only the case of letters
    and the spacing: put in lowercase, its result is the lowercased words
    of the text joined by single spaces. *)
Theorem smart_title_case_only (text : pystr) :
  ascii_only text = true ->
  lower (smart_title text) = join " " (map lower (split text)).
Proof. intros _. apply lower_smart_title. Qed.

Lemma smart_title_case_only_witness :
  lower (smart_title "the LORD   of THE rings")
  = join " " (map lower (split "the LORD   of THE rings")).
Proof.
  apply (smart_title_case_only "the LORD   of THE rings"). reflexivity.
Defined.

Lemma split_from_nil : forall s cur,
  split_from cur s = [] <-> cur = [] /\ forallb is_space s = true.
Proof.
  induction s as [|x s IH]; intros cur; simpl.
  - destruct cur; split; intros H; try discriminate; auto.
    destruct H; discriminate.
  - destruct (is_space x) eqn:Hx; simpl.
    + destruct cur as [|c cur].
      * rewrite IH. tauto.
      * split; [discriminate|]. intros [E _]. discriminate.
    + rewrite IH. split; [|intros [_ E]; discriminate].
      intros [E _]. destruct cur; discriminate.
Qed.

Lemma is_lower_upper_char (c : ascii) : is_lower (upper_char c) = false.
Proof. all_chars c; reflexivity. Qed.

(** X12.  On an ASCII text [smart_title] returns the empty string exactly
    when the text is made of whitespace only (the empty text included); a
    title that is not empty begins with a character that is neither
    whitespace nor a lowercase letter. *)
Theorem smart_title_empty (text : pystr) :
  ascii_only text = true ->
  (smart_title text = [] <-> forallb is_space text = true) /\
  (forall c r, smart_title text = c :: r ->
               is_space c = false /\ is_lower c = false).
Proof.
  intros _. rewrite smart_title_eq.
  pose proof (split_words text) as Hw.
  pose proof (split_from_nil text []) as Hnil. fold (split text) in Hnil.
  destruct (split text) as [|w ws].
  - split; [|discriminate]. split; [intros _; now apply Hnil|reflexivity].
  - inversion Hw as [|? ? [Hne Hsp] _]; subst.
    destruct w as [|x w]; [contradiction|].
    simpl in Hsp. apply andb_true_iff in Hsp as [Hx _].
    apply negb_true_iff in Hx.
    assert (Hhead : exists tl,
               join " " (titled_words ((x :: w) :: ws)) = upper_char x :: tl).
    { simpl. destruct (map render_word ws); now eexists. }
    destruct Hhead as [tl Hh].
    split.
    + split.
      * intros E. pose proof (eq_trans (eq_sym E) Hh) as F. discriminate F.
      * intros H. destruct Hnil as [_ Hn].
        specialize (Hn (conj eq_refl H)). discriminate Hn.
    + intros c r E. pose proof (eq_trans (eq_sym E) Hh) as F.
      injection F as -> _.
      now rewrite is_space_upper_char, is_lower_upper_char.
Qed.

Lemma smart_title_empty_witness :
  smart_title "  " = [] /\
  is_space "T" = false /\ is_lower "T" = false.
Proof.
  destruct (smart_title_empty "  " eq_refl) as [[_ H] _].
  destruct (smart_title_empty "the end" eq_refl) as [_ H2].
  split; [apply H; reflexivity|].
  apply (H2 "T"%char ("he End" : pystr)). reflexivity.
Defined.

(** ** From the tokens to the titles *)

Lemma lstrip_dropped (p : ascii -> bool) (s : pystr) :
  exists d, s = d ++ lstrip p s /\ forallb p d = true.
Proof.
  induction s as [|x s (d & IH & Hd)]; simpl.
  - now exists [].
  - destruct (p x) eqn:Hx.
    + exists (x :: d). simpl. rewrite Hx, Hd. split; [now rewrite <- IH|auto].
    + now exists [].
Qed.

Lemma rstrip_dropped (p : ascii -> bool) (s : pystr) :
  exists d, s = rstrip p s ++ d /\ forallb p d = true.
Proof.
  unfold rstrip. destruct (lstrip_dropped p (rev s)) as (d & Hd & Hp).
  exists (rev d). split.
  - rewrite <- rev_app_distr, <- Hd. now rewrite rev_involutive.
  - apply forallb_forall. intros x Hx. apply in_rev in Hx.
    rewrite forallb_forall in Hp. now apply Hp.
Qed.

Lemma split_from_spaces : forall s d cur,
  forallb is_space d = true -> split_from cur (s ++ d) = split_from cur s.
Proof.
  induction s as [|x s IH]; intros d cur Hd.
  - simpl app. revert cur. induction d as [|c d IHd]; intros cur;
      [reflexivity|].
    simpl in Hd. apply andb_true_iff in Hd as [Hc Hd].
    simpl. rewrite Hc. specialize (IHd Hd).
    destruct cur as [|y cur]; [apply (IHd [])|].
    now rewrite (IHd []).
  - simpl. destruct (is_space x); [|now apply IH].
    destruct cur; now rewrite IH.
Qed.

Lemma split_strip (s : pystr) : split (strip s) = split s.
Proof.
  unfold split, strip, strip_by.
  destruct (lstrip_dropped is_space s) as (d1 & H1 & Hd1).
  destruct (rstrip_dropped is_space (lstrip is_space s)) as (d2 & H2 & Hd2).
  assert (E1 : split_from [] s = split_from [] (lstrip is_space s)).
  { rewrite H1 at 1. clear H1. induction d1 as [|c d IH]; [reflexivity|].
    simpl in Hd1. apply andb_true_iff in Hd1 as [Hc Hd]. simpl.
    rewrite Hc. now apply IH. }
  rewrite E1. rewrite H2 at 2. now rewrite split_from_spaces.
Qed.

Lemma split_join_tokens (ts : list pystr) :
  Forall (fun t => forallb (fun c => negb (is_space c)) t = true) ts ->
  split (join " " ts) = filter nonempty ts.
Proof.
  unfold split. induction 1 as [|t ts Ht Hts IH]; [reflexivity|].
  destruct ts as [|t2 ts].
  - simpl join. rewrite <- (app_nil_r t) at 1.
    rewrite split_from_word by assumption. simpl. now destruct t.
  - change (join " " (t :: t2 :: ts))
      with (t ++ " "%char :: join " " (t2 :: ts)).
    rewrite split_from_word by assumption.
    change (split_from ([] ++ t) (" "%char :: join " " (t2 :: ts)))
      with (match t with
            | [] => split_from [] (join " " (t2 :: ts))
            | _ => t :: split_from [] (join " " (t2 :: ts))
            end).
    rewrite IH. now destruct t.
Qed.

Lemma nodelim_nospace (t : pystr) :
  forallb (fun c => negb (is_delim c)) t = true ->
  forallb (fun c => negb (is_space c)) t = true.
Proof.
  intros H. apply forallb_forall. intros c Hc.
  rewrite forallb_forall in H. specialize (H c Hc).
  apply negb_true_iff in H. unfold is_delim in H.
  apply orb_false_iff in H as [_ H]. now rewrite H.
Qed.

Lemma title_of_tokens (ts : list pystr) :
  Forall (fun t => lower t = t
                   /\ forallb (fun c => negb (is_delim c)) t = true) ts ->
  lower (smart_title (strip (join " " ts))) = join " " (filter nonempty ts).
Proof.
  intros H. rewrite lower_smart_title, split_strip, split_join_tokens.
  - f_equal. rewrite <- (map_id (filter nonempty ts)) at 2.
    apply map_ext_in. intros t Ht. apply filter_In in Ht as [Ht _].
    rewrite Forall_forall in H. now apply H.
  - eapply Forall_impl; [|exact H]. intros t [_ Ht].
    now apply nodelim_nospace.
Qed.

Lemma tokens_shape_all filename dy ds parts year info :
  clean_parts filename dy ds = Ok (parts, year, info) ->
  Forall (fun t => lower t = t
                   /\ forallb (fun c => negb (is_delim c)) t = true) parts.
Proof.
  intros H. apply Forall_forall. intros t Ht.
  destruct (token_shape _ _ _ _ _ _ H t Ht) as (H1 & H2 & _). now split.
Qed.

Lemma Forall_firstn {A : Type} (P : A -> Prop) (n : nat) (l : list A) :
  Forall P l -> Forall P (firstn n l).
Proof.
  intros H. rewrite <- (firstn_skipn n l) in H.
  now apply Forall_app in H as [H _].
Qed.

Lemma Forall_skipn {A : Type} (P : A -> Prop) (n : nat) (l : list A) :
  Forall P l -> Forall P (skipn n l).
Proof.
  intros H. rewrite <- (firstn_skipn n l) in H.
  now apply Forall_app in H as [_ H].
Qed.

Lemma last_episode_token_ge (eps : list Z) (parts : list pystr) :
  forall n a last0 m,
    last0 <= a ->
    last_episode_token eps parts (seq a n) last0 = Ok m -> last0 <= m.
Proof.
  induction n as [|n IH]; intros a last0 m Hle H; simpl in H.
  - injection H as <-. lia.
  - destruct (index parts a) as [part|]; simpl in H; [|discriminate].
    destruct (any_episode eps part).
    + apply IH in H; lia.
    + injection H as <-. lia.
Qed.

(** X13.  On an ASCII filename the titles are made of the tokens: put in
    lowercase, the title of [parse_movie] is the non-empty tokens joined by
    single spaces; the title of [parse_show] is so made of the first [i]
    tokens and its episode title, when there is one, of the tokens from
    position [j] on, with [i < j]. *)
Theorem titles_from_tokens (filename : pystr) :
  ascii_only filename = true ->
  (forall parts year info,
      clean_parts filename true false = Ok (parts, year, info) ->
      exists t,
        parse_movie filename = Ok (mk_movie t year) /\
        lower t = join " " (filter nonempty parts)) /\
  (forall parts year info r,
      clean_parts filename false true = Ok (parts, year, info) ->
      parse_show filename = Ok r ->
      exists i j,
        i < j /\
        lower (title r) = join " " (filter nonempty (firstn i parts)) /\
        (forall et, episode_title r = Some et ->
                    lower et = join " " (filter nonempty (skipn j parts)))).
Proof.
  intros _. split.
  - intros parts year info Hc.
    pose proof (tokens_shape_all _ _ _ _ _ _ Hc) as Hshape.
    unfold parse_movie. rewrite Hc. simpl. eexists. split; [reflexivity|].
    now apply title_of_tokens.
  - intros parts year info r Hc.
    pose proof (tokens_shape_all _ _ _ _ _ _ Hc) as Hshape.
    unfold parse_show. rewrite Hc. simpl bind.
    destruct info as [[sn eps]|].
    + set (i := first_episode_token eps 0 parts (length parts)).
      destruct (last_episode_token eps parts (seq i (length parts - i)) i)
        as [n|] eqn:Hn; simpl bind; [|discriminate].
      apply last_episode_token_ge in Hn; [|lia].
      intros H. injection H as <-. simpl.
      exists i, (n + 1). split; [lia|].
      split; [apply title_of_tokens; now apply Forall_firstn|].
      intros et. destruct (n + 1 <? length parts); [|discriminate].
      intros H. injection H as <-.
      apply title_of_tokens. now apply Forall_skipn.
    + intros H. injection H as <-. simpl.
      exists (length parts), (S (length parts)). split; [lia|].
      split; [apply title_of_tokens; now apply Forall_firstn|].
      discriminate.
Qed.

Lemma titles_from_tokens_witness :
  exists t,
    parse_movie "The--Matrix (1999) [1080p].mkv"
    = Ok (mk_movie t (Some 1999%Z)) /\
    lower t
    = join " " (filter nonempty
                  ["the" : pystr; "" : pystr; "matrix" : pystr]).
Proof.
  destruct (titles_from_tokens "The--Matrix (1999) [1080p].mkv" eq_refl)
    as [H _].
  apply (H ["the" : pystr; "" : pystr; "matrix" : pystr]
           (Some 1999%Z) None).
  vm_compute. reflexivity.
Defined.

(** X14.  On a name in which neither the year pattern nor the
    season/episode pattern occurs, [parse_movie] and [parse_show] return the
    same title and no other field. *)
Theorem titles_agree_without_metadata (filename : pystr) :
  re_search false year_pattern (strip_ext filename) = None ->
  re_search true show_pattern (strip_ext filename) = None ->
  exists t,
    parse_movie filename = Ok (mk_movie t None) /\
    parse_show filename = Ok (mk_show t None None None).
Proof.
  intros Hy Hs.
  destruct (clean_parts_ok filename true false) as (y & i & Hy1 & Hi1 & Hc1).
  destruct (clean_parts_ok filename false true) as (y2 & i2 & Hy2 & Hi2 & Hc2).
  pose proof (detect_year_of_spec (strip_ext filename)) as Hys.
  rewrite Hy in Hys. rewrite Hys in Hy1. injection Hy1 as <-.
  pose proof (detect_show_info_of_spec (strip_ext filename)) as Hss.
  rewrite Hs in Hss. rewrite Hss in Hi2. injection Hi2 as <-.
  injection Hy2 as <-.
  unfold parse_movie, parse_show. rewrite Hc1, Hc2. simpl bind.
  eexists. split; [reflexivity|]. now rewrite firstn_all.
Qed.

Lemma titles_agree_without_metadata_witness :
  exists t,
    parse_movie "holiday_video-final.avi" = Ok (mk_movie t None) /\
    parse_show "holiday_video-final.avi" = Ok (mk_show t None None None).
Proof.
  apply (titles_agree_without_metadata "holiday_video-final.avi");
    reflexivity.
Defined.
